(** * storage-backend: a shallow embedding and its verified properties

    The development follows the layout of the Python package:

    - [storage_backend.local], [storage_backend.http], [storage_backend.s3],
      [storage_backend.gcs]: the four implementations of the abstract
      [StorageBackend] interface ([get], [put]);
    - [storage_backend.settings]: the per-backend settings records;
    - [examples/download_s3.py]: [PooledStorage], [build_storage], [tagged]
      and [download_images].

    Python exceptions are values of [exn]; a call that may raise returns a
    [result].  Code that touches the file system is written in a state and
    error monad over a model of the directory tree.  Coroutines that suspend
    ([async with], [await]) are modelled by labelled transition systems whose
    labels are the moves of the asyncio event loop and of the environment.

    Telemetry (the tracer span and the latency histogram around every call)
    neither changes results nor swallows exceptions; it is left out. *)

From Stdlib Require Import ZArith Lia Ascii String.
From stdpp Require Import base gmap strings list.

Open Scope string_scope.
Open Scope list_scope.

(** ** Python values shared by all modules *)

Abbreviation bytes := (list Byte.byte).

(** The exception classes the code raises or lets through.  The argument of
    the [OSError] subclasses is the file name (or, for the one raised by
    [LocalStorage.get], the key). *)
Inductive exn : Type :=
| AssertionError
| NotImplementedError (msg : string)
| RuntimeError (msg : string)
| ValueError (msg : string)
| FileNotFoundError (arg : string)
| FileExistsError (arg : string)
| NotADirectoryError (arg : string)
| IsADirectoryError (arg : string)
| ClientError (code : string)
| HTTPStatusError (status : Z)
| TransportError (msg : string).

Inductive result (A : Type) : Type :=
| Return (a : A)
| Raise (e : exn).
Arguments Return {A} a.
Arguments Raise {A} e.

Definition is_Return {A} (r : result A) : bool :=
  match r with Return _ => true | Raise _ => false end.

(** [typing.BinaryIO]: a buffer and a cursor.  [read()] returns what lies
    after the cursor. *)
Record BinaryIO : Type := { buf : bytes; pos : nat }.

(** [io.BytesIO(b)] *)
Definition BytesIO (b : bytes) : BinaryIO := {| buf := b; pos := 0 |}.

Definition read (file : BinaryIO) : bytes := drop (pos file) (buf file).

(** ** [str] methods used by the backends *)

Module str.

Fixpoint mem (a : Ascii.ascii) (chars : string) : bool :=
  match chars with
  | EmptyString => false
  | String c chars' => if Ascii.eqb a c then true else mem a chars'
  end.

(** [s.lstrip(chars)] *)
Fixpoint lstrip (chars s : string) : string :=
  match s with
  | EmptyString => EmptyString
  | String a s' => if mem a chars then lstrip chars s' else s
  end.

(** [s.rstrip(chars)] *)
Definition rstrip (chars s : string) : string :=
  String.rev (lstrip chars (String.rev s)).

(** [s.strip(chars)] *)
Definition strip (chars s : string) : string :=
  rstrip chars (lstrip chars s).

(** [s.startswith(a)] for a one-character [a] *)
Definition startswith (a : Ascii.ascii) (s : string) : bool :=
  match s with
  | String c _ => Ascii.eqb c a
  | EmptyString => false
  end.

(** [s.split(sep)] for a one-character separator: never empty. *)
Fixpoint split (sep : Ascii.ascii) (s : string) : list string :=
  match s with
  | EmptyString => [EmptyString]
  | String a s' =>
      match split sep s' with
      | [] => [EmptyString]
      | w :: ws =>
          if Ascii.eqb a sep then EmptyString :: w :: ws
          else String a w :: ws
      end
  end.

(** [sep.join(l)] *)
Fixpoint join (sep : string) (l : list string) : string :=
  match l with
  | [] => EmptyString
  | [w] => w
  | w :: ws => w +:+ sep +:+ join sep ws
  end.

End str.

(** ** The file system reached through [pathlib]

    A tree without symbolic links in which the process may read and write
    everywhere.  A path is the list of its components below ["/"]; the
    directory tree maps the canonical path of every existing entry to what
    is there.  The root directory always exists. *)

Module posix.

Inductive node : Type :=
| File (data : bytes)
| Dir.

Abbreviation FS := (gmap (list string) node).

Inductive errno : Type := ENOENT | ENOTDIR | EEXIST | EISDIR.

Definition kind (fs : FS) (p : list string) : option node :=
  match p with
  | [] => Some Dir
  | _ => fs !! p
  end.

(** Path resolution: every component is looked up in the directory reached
    so far; [".."] goes back to the parent of that directory. *)
Fixpoint walk (fs : FS) (cur cs : list string) : errno + list string :=
  match cs with
  | [] => inr cur
  | c :: cs' =>
      match kind fs cur with
      | Some Dir =>
          walk fs (if decide (c = "..") then removelast cur else cur ++ [c]) cs'
      | Some (File _) => inl ENOTDIR
      | None => inl ENOENT
      end
  end.

Definition namei (fs : FS) (p : list string) : errno + list string :=
  walk fs [] p.

(** [mkdir(2)] *)
Definition mkdir (p : list string) (fs : FS) : errno + FS :=
  match namei fs p with
  | inl e => inl e
  | inr c =>
      match kind fs c with
      | Some _ => inl EEXIST
      | None => inr (<[c := Dir]> fs)
      end
  end.

(** [open(2)] with [O_WRONLY|O_CREAT|O_TRUNC], [write(2)], [close(2)] *)
Definition creat (p : list string) (data : bytes) (fs : FS) : errno + FS :=
  match namei fs p with
  | inl e => inl e
  | inr c =>
      match kind fs c with
      | Some Dir => inl EISDIR
      | _ => inr (<[c := File data]> fs)
      end
  end.

(** [open(2)] with [O_RDONLY], [read(2)] to the end, [close(2)] *)
Definition slurp (p : list string) (fs : FS) : errno + bytes :=
  match namei fs p with
  | inl e => inl e
  | inr c =>
      match kind fs c with
      | Some (File data) => inr data
      | Some Dir => inl EISDIR
      | None => inl ENOENT
      end
  end.

(** [stat(2)] *)
Definition stat (p : list string) (fs : FS) : errno + node :=
  match namei fs p with
  | inl e => inl e
  | inr c =>
      match kind fs c with
      | Some n => inr n
      | None => inl ENOENT
      end
  end.

End posix.

(** ** State and exceptions

    A computation over a mutable world [S] that returns or raises.  What was
    written before an exception is raised stays written. *)

Definition M (S A : Type) : Type := S → result A * S.

Definition ret {S A} (a : A) : M S A := λ s, (Return a, s).

Definition raise {S A} (e : exn) : M S A := λ s, (Raise e, s).

Definition bind {S A B} (m : M S A) (k : A → M S B) : M S B :=
  λ s, match m s with
       | (Return a, s') => k a s'
       | (Raise e, s') => (Raise e, s')
       end.

Notation "x <- m ;; k" := (bind m (λ x, k))
  (at level 100, m at next level, right associativity).
Notation "m ;;; k" := (bind m (λ _, k))
  (at level 100, right associativity).

(** ** [pathlib.Path] on a POSIX system *)

Module pathlib.

(** The parts of an absolute path.  A relative [Path] stands for its
    absolute form in the working directory of the process. *)
Abbreviation Path := (list string).

(** The parts [PurePosixPath(s)] keeps of [s]: empty components and ["."]
    are dropped, [".."] stays. *)
Definition parts (s : string) : list string :=
  filter (λ c, c ≠ "" ∧ c ≠ ".") (str.split "/"%char s).

(** [self / key]: an absolute [key] replaces [self]. *)
Definition truediv (self : Path) (key : string) : Path :=
  if str.startswith "/"%char key then parts key else self ++ parts key.

(** [self.parent]; the root is its own parent. *)
Definition parent (self : Path) : Path := removelast self.

(** [str(self)] *)
Definition as_posix (self : Path) : string := "/" +:+ str.join "/" self.

(** The [OSError] subclass CPython raises for an error number. *)
Definition OSError (e : posix.errno) (self : Path) : exn :=
  match e with
  | posix.ENOENT => FileNotFoundError (as_posix self)
  | posix.ENOTDIR => NotADirectoryError (as_posix self)
  | posix.EEXIST => FileExistsError (as_posix self)
  | posix.EISDIR => IsADirectoryError (as_posix self)
  end.

(** [self.exists()]: [stat] errors mean no. *)
Definition exists_ (self : Path) : M posix.FS bool :=
  λ fs, (Return (match posix.stat self fs with
                 | inr _ => true
                 | inl _ => false
                 end), fs).

(** [self.is_dir()] *)
Definition is_dir (self : Path) : M posix.FS bool :=
  λ fs, (Return (match posix.stat self fs with
                 | inr posix.Dir => true
                 | _ => false
                 end), fs).

(** [os.mkdir(self)] *)
Definition os_mkdir (self : Path) : M posix.FS unit :=
  λ fs, match posix.mkdir self fs with
        | inr fs' => (Return (), fs')
        | inl e => (Raise (OSError e self), fs)
        end.

(** [self.mkdir(parents=False, exist_ok=exist_ok)]:
    [FileNotFoundError] is re-raised, any other [OSError] is forgiven when
    [exist_ok] holds and the path is a directory. *)
Definition mkdir_flat (self : Path) (exist_ok : bool) : M posix.FS unit :=
  λ fs, match posix.mkdir self fs with
        | inr fs' => (Return (), fs')
        | inl posix.ENOENT => (Raise (OSError posix.ENOENT self), fs)
        | inl e =>
            match is_dir self fs with
            | (Return true, fs') =>
                if exist_ok then (Return (), fs') else (Raise (OSError e self), fs')
            | (_, fs') => (Raise (OSError e self), fs')
            end
        end.

(** [self.mkdir(parents=True, exist_ok=exist_ok)], on the reversed parts of
    [self]: on [FileNotFoundError] the parent is made first (with
    [parents=True, exist_ok=True]) and [self] is tried again without
    [parents]. *)
Fixpoint mkdir_parents (rself : list string) (exist_ok : bool) : M posix.FS unit :=
  λ fs,
    let self := rev rself in
    match posix.mkdir self fs with
    | inr fs' => (Return (), fs')
    | inl posix.ENOENT =>
        match rself with
        | [] => (Raise (OSError posix.ENOENT self), fs)
        | _ :: rparent =>
            (mkdir_parents rparent true ;;; mkdir_flat self exist_ok) fs
        end
    | inl e =>
        match is_dir self fs with
        | (Return true, fs') =>
            if exist_ok then (Return (), fs') else (Raise (OSError e self), fs')
        | (_, fs') => (Raise (OSError e self), fs')
        end
    end.

(** [self.mkdir(parents=parents, exist_ok=exist_ok)] *)
Definition mkdir (self : Path) (parents exist_ok : bool) : M posix.FS unit :=
  if parents then mkdir_parents (rev self) exist_ok
  else mkdir_flat self exist_ok.

(** [self.write_bytes(data)] *)
Definition write_bytes (self : Path) (data : bytes) : M posix.FS unit :=
  λ fs, match posix.creat self data fs with
        | inr fs' => (Return (), fs')
        | inl e => (Raise (OSError e self), fs)
        end.

(** [self.read_bytes()] *)
Definition read_bytes (self : Path) : M posix.FS bytes :=
  λ fs, match posix.slurp self fs with
        | inr data => (Return data, fs)
        | inl e => (Raise (OSError e self), fs)
        end.

End pathlib.

(** ** The world outside the process

    The directory tree, the two object stores (bucket and object name to
    content), and the web servers an [httpx.Client] can reach, with the log
    of the requests sent to them. *)

Record Response : Type := { status_code : Z; content : bytes }.

Record World : Type := {
  fs : posix.FS;
  s3 : gmap (string * string) bytes;
  gcs : gmap (string * string) bytes;
  web : gmap string Response;
  requests : list string
}.

Definition on_fs {A} (m : M posix.FS A) : M World A :=
  λ w, let (r, fs') := m (fs w) in
       (r, {| fs := fs'; s3 := s3 w; gcs := gcs w; web := web w;
              requests := requests w |}).

(** The process: the world it acts on and the [asyncio.Semaphore] objects it
    has allocated, each with its current [_value]. *)
Record Process : Type := {
  semaphores : list Z;
  io : World
}.

Definition on_io {A} (m : M World A) : M Process A :=
  λ p, let (r, w') := m (io p) in
       (r, {| semaphores := semaphores p; io := w' |}).

(** ** [asyncio]: semaphores and coroutines *)

Module asyncio.

(** A semaphore object is known by its address in [semaphores]. *)
Record Semaphore : Type := { id : nat }.

(** [asyncio.Semaphore(value)] *)
Definition Semaphore__init__ (value : Z) : M Process Semaphore :=
  λ p, if (value <? 0)%Z
       then (Raise (ValueError "Semaphore initial value must be >= 0"), p)
       else (Return {| id := length (semaphores p) |},
             {| semaphores := semaphores p ++ [value]; io := io p |}).

(** The [_value] of a semaphore, [0] for an address not allocated. *)
Definition _value (p : Process) (sem : Semaphore) : Z :=
  default 0%Z (semaphores p !! id sem).

Definition set_value (sem : Semaphore) (v : Z) (p : Process) : Process :=
  {| semaphores := <[id sem := v]> (semaphores p); io := io p |}.

(** The body of an [async def], as far as suspension goes:
    - [Sync m]: straight-line code without [await], it runs in one piece;
    - [RunInExecutor m]: [await loop.run_in_executor(executor, f, ...)],
      the coroutine is suspended until a worker thread has run [f];
    - [AsyncWith sem body]: [async with sem: body];
    - [Bind c k]: [x = await c] followed by [k x]. *)
Inductive coro (A : Type) : Type :=
| Sync (m : M World A)
| RunInExecutor (m : M World A)
| AsyncWith (sem : Semaphore) (body : coro A)
| Bind {B : Type} (c : coro B) (k : B → coro A).
Arguments Sync {A} m.
Arguments RunInExecutor {A} m.
Arguments AsyncWith {A} sem body.
Arguments Bind {A B} c k.

(** A coroutine in execution:
    - [Start c]: [c] has not begun;
    - [InFlight m]: the job [m] was handed to the executor, the coroutine
      waits for its future;
    - [Holding sem t]: inside the block of [async with sem], a permit of
      [sem] is held, the block is at [t];
    - [Await t k]: waiting for [t], then [k];
    - [Done r]: returned or raised. *)
Inductive task (A : Type) : Type :=
| Start (c : coro A)
| InFlight (m : M World A)
| Holding (sem : Semaphore) (t : task A)
| Await {B : Type} (t : task B) (k : B → coro A)
| Done (r : result A).
Arguments Start {A} c.
Arguments InFlight {A} m.
Arguments Holding {A} sem t.
Arguments Await {A B} t k.
Arguments Done {A} r.

Definition finished {A} (t : task A) : option (result A) :=
  match t with
  | Done r => Some r
  | _ => None
  end.

(** One move of a coroutine, [None] when it cannot move: it is finished, or
    it waits for a permit.
    - entering [async with sem] needs [_value > 0] and decrements it
      ([Semaphore.acquire]);
    - leaving the block, by return or by exception, increments it
      ([Semaphore.__aexit__] calls [release]) and passes the outcome on;
    - a job in flight completes with the outcome of its call on the
      world. *)
Fixpoint step {A} (t : task A) (p : Process) : option (task A * Process) :=
  match t with
  | Start (Sync m) =>
      let (r, p') := on_io m p in Some (Done r, p')
  | Start (RunInExecutor m) => Some (InFlight m, p)
  | Start (AsyncWith sem body) =>
      if (0 <? _value p sem)%Z
      then Some (Holding sem (Start body), set_value sem (_value p sem - 1) p)
      else None
  | Start (Bind c k) => Some (Await (Start c) k, p)
  | InFlight m =>
      let (r, p') := on_io m p in Some (Done r, p')
  | Holding sem (Done r) =>
      Some (Done r, set_value sem (_value p sem + 1) p)
  | Holding sem t' =>
      match step t' p with
      | Some (t'', p') => Some (Holding sem t'', p')
      | None => None
      end
  | Await (Done (Return b)) k => Some (Start (k b), p)
  | Await (Done (Raise e)) k => Some (Done (Raise e), p)
  | Await t' k =>
      match step t' p with
      | Some (t'', p') => Some (Await t'' k, p')
      | None => None
      end
  | Done _ => None
  end.

(** A coroutine awaited with nothing else scheduled: it moves until it is
    finished, or cannot move, or [fuel] runs out. *)
Fixpoint run_until_complete {A} (fuel : nat) (t : task A) (p : Process)
  : option (result A) * Process :=
  match finished t with
  | Some r => (Some r, p)
  | None =>
      match fuel with
      | O => (None, p)
      | S fuel' =>
          match step t p with
          | Some (t', p') => run_until_complete fuel' t' p'
          | None => (None, p)
          end
      end
  end.

(** Permits of [sem] held inside [t]. *)
Fixpoint holding {A} (sem : Semaphore) (t : task A) : nat :=
  match t with
  | Holding s t' => (if decide (id s = id sem) then 1 else 0) + holding sem t'
  | Await t' _ => holding sem t'
  | _ => 0
  end.

(** Executor jobs of [t] in flight (none or one). *)
Fixpoint in_flight {A} (t : task A) : nat :=
  match t with
  | InFlight _ => 1
  | Holding _ t' => in_flight t'
  | Await t' _ => in_flight t'
  | _ => 0
  end.

(** Every executor job of the coroutine is submitted inside a block
    [async with sem]. *)
Fixpoint guarded {A} (sem : Semaphore) (c : coro A) : Prop :=
  match c with
  | Sync _ => True
  | RunInExecutor _ => False
  | AsyncWith s body => id s = id sem ∨ guarded sem body
  | Bind c' k => guarded sem c' ∧ ∀ b, guarded sem (k b)
  end.

Fixpoint guarded_task {A} (sem : Semaphore) (t : task A) : Prop :=
  match t with
  | Start c => guarded sem c
  | InFlight _ => False
  | Holding s t' => id s = id sem ∨ guarded_task sem t'
  | Await t' k => guarded_task sem t' ∧ ∀ b, guarded sem (k b)
  | Done _ => True
  end.


End asyncio.

(** [concurrent.futures.ThreadPoolExecutor(max_workers=n)] *)
Record ThreadPoolExecutor : Type := { _max_workers : Z }.

Definition ThreadPoolExecutor__init__ {S} (max_workers : Z)
  : M S ThreadPoolExecutor :=
  if (max_workers <=? 0)%Z
  then raise (ValueError "max_workers must be greater than 0")
  else ret {| _max_workers := max_workers |}.

(** ** [storage_backend/abc.py]

    The abstract interface: a backend offers the coroutines [put] and
    [get]. *)

Module abc.

Class StorageBackend (T : Type) : Type := {
  put : T → string → BinaryIO → asyncio.coro unit;
  get : T → string → asyncio.coro bytes
}.

End abc.

(** ** [storage_backend/local.py] *)

Module LocalStorage.

Record t : Type := { root : pathlib.Path }.

Definition __init__ (root : pathlib.Path) : M Process t :=
  on_io (on_fs (pathlib.mkdir root true true)) ;;;
  ret {| root := root |}.

(** Neither coroutine awaits anything: the file system calls block the
    event loop until they are done. *)
Definition put (self : t) (key : string) (file : BinaryIO) : asyncio.coro unit :=
  asyncio.Sync (on_fs (
    let path := pathlib.truediv (root self) key in
    pathlib.mkdir (pathlib.parent path) true true ;;;
    pathlib.write_bytes path (read file))).

Definition get (self : t) (key : string) : asyncio.coro bytes :=
  asyncio.Sync (on_fs (
    let path := pathlib.truediv (root self) key in
    path_exists <- pathlib.exists_ path ;;
    if negb path_exists then raise (FileNotFoundError key)
    else
      out <- pathlib.read_bytes path ;;
      ret out)).

#[global] Instance backend : abc.StorageBackend t :=
  {| abc.put := put; abc.get := get |}.

End LocalStorage.

(** ** [storage_backend/http.py] *)

Module httpx.

(** [client.get(url)]: the request goes out; a server that cannot be
    reached is a transport error. *)
Definition get (url : string) : M World Response :=
  λ w, let w' := {| fs := fs w; s3 := s3 w; gcs := gcs w; web := web w;
                    requests := requests w ++ [url] |} in
       match web w !! url with
       | Some r => (Return r, w')
       | None => (Raise (TransportError url), w')
       end.

(** [r.raise_for_status()]: anything but 2xx raises. *)
Definition raise_for_status {S} (r : Response) : M S unit :=
  if ((200 <=? status_code r) && (status_code r <? 300))%Z then ret ()
  else raise (HTTPStatusError (status_code r)).

End httpx.

Module HTTPStorage.

Record t : Type := {
  base_url : string;
  headers : gmap string string;
  _executor : ThreadPoolExecutor;
  _semaphore : asyncio.Semaphore
}.

Definition __init__ (base_url : string) (headers : gmap string string)
    (max_concurrent : Z) : M Process t :=
  executor <- ThreadPoolExecutor__init__ max_concurrent ;;
  semaphore <- asyncio.Semaphore__init__ max_concurrent ;;
  ret {| base_url := str.rstrip "/" base_url;
         headers := headers;
         _executor := executor;
         _semaphore := semaphore |}.

Definition put (self : t) (key : string) (file : BinaryIO) : asyncio.coro unit :=
  asyncio.Sync (raise (RuntimeError "HTTP backend is read-only")).

Definition get (self : t) (key : string) : asyncio.coro bytes :=
  let url := base_url self +:+ "/" +:+ key in
  asyncio.Bind
    (asyncio.AsyncWith (_semaphore self)
       (asyncio.RunInExecutor (httpx.get url)))
    (λ r, asyncio.Sync (httpx.raise_for_status r ;;; ret (content r))).

#[global] Instance backend : abc.StorageBackend t :=
  {| abc.put := put; abc.get := get |}.

End HTTPStorage.

(** ** [storage_backend/s3.py] *)

Module boto3.

(** [client.upload_fileobj(Fileobj, Bucket, Key)] *)
Definition upload_fileobj (Fileobj : BinaryIO) (Bucket Key : string)
  : M World unit :=
  λ w, (Return (),
        {| fs := fs w; s3 := <[(Bucket, Key) := read Fileobj]> (s3 w);
           gcs := gcs w; web := web w; requests := requests w |}).

(** [client.download_fileobj(Bucket, Key, buf)] followed by
    [buf.getvalue()] on the fresh buffer [buf]. *)
Definition download_fileobj (Bucket Key : string) : M World bytes :=
  λ w, match s3 w !! (Bucket, Key) with
       | Some data => (Return data, w)
       | None => (Raise (ClientError "404"), w)
       end.

End boto3.

Module S3Storage.

Record t : Type := {
  bucket : string;
  prefix : string;
  _executor : ThreadPoolExecutor;
  _semaphore : asyncio.Semaphore
}.

Definition __init__ (bucket prefix : string) (max_concurrent : Z) : M Process t :=
  executor <- ThreadPoolExecutor__init__ max_concurrent ;;
  semaphore <- asyncio.Semaphore__init__ max_concurrent ;;
  ret {| bucket := str.strip "/" bucket;
         prefix := str.strip "/" prefix +:+ "/";
         _executor := executor;
         _semaphore := semaphore |}.

Definition put (self : t) (key : string) (file : BinaryIO) : asyncio.coro unit :=
  asyncio.AsyncWith (_semaphore self)
    (asyncio.RunInExecutor
       (boto3.upload_fileobj file (bucket self)
          (prefix self +:+ str.lstrip "/" key))).

Definition get (self : t) (key : string) : asyncio.coro bytes :=
  asyncio.AsyncWith (_semaphore self)
    (asyncio.RunInExecutor
       (boto3.download_fileobj (bucket self)
          (prefix self +:+ str.lstrip "/" key))).

#[global] Instance backend : abc.StorageBackend t :=
  {| abc.put := put; abc.get := get |}.

End S3Storage.

(** ** [storage_backend/gcs.py] *)

Module gcloud.

(** [bucket.blob(name).upload_from_file(file)] *)
Definition upload_from_file (bucket name : string) (file : BinaryIO)
  : M World unit :=
  λ w, (Return (),
        {| fs := fs w; s3 := s3 w;
           gcs := <[(bucket, name) := read file]> (gcs w);
           web := web w; requests := requests w |}).

(** [bucket.blob(name).download_as_bytes()] *)
Definition download_as_bytes (bucket name : string) : M World bytes :=
  λ w, match gcs w !! (bucket, name) with
       | Some data => (Return data, w)
       | None => (Raise (ClientError "404"), w)
       end.

End gcloud.

Module GCSStorage.

Record t : Type := {
  bucket : string;
  prefix : string;
  _executor : ThreadPoolExecutor;
  _semaphore : asyncio.Semaphore
}.

Definition __init__ (bucket prefix : string) (max_concurrent : Z) : M Process t :=
  executor <- ThreadPoolExecutor__init__ max_concurrent ;;
  semaphore <- asyncio.Semaphore__init__ max_concurrent ;;
  ret {| bucket := bucket;
         prefix := str.lstrip "/" prefix +:+ "/";
         _executor := executor;
         _semaphore := semaphore |}.

Definition put (self : t) (key : string) (file : BinaryIO) : asyncio.coro unit :=
  asyncio.AsyncWith (_semaphore self)
    (asyncio.RunInExecutor
       (gcloud.upload_from_file (bucket self) (prefix self +:+ key) file)).

Definition get (self : t) (key : string) : asyncio.coro bytes :=
  asyncio.AsyncWith (_semaphore self)
    (asyncio.RunInExecutor
       (gcloud.download_as_bytes (bucket self) (prefix self +:+ key))).

#[global] Instance backend : abc.StorageBackend t :=
  {| abc.put := put; abc.get := get |}.

End GCSStorage.

(** ** [storage_backend/settings.py]

    A settings object as [build_storage] reads it: the [backend] tag and the
    attributes of the four models, [None] for an attribute that is not
    set. *)

Module settings.

Record Settings : Type := {
  backend : string;
  root_dir : option pathlib.Path;
  base_url : option string;
  headers : gmap string string;
  bucket : option string;
  prefix : string
}.

Definition LocalSettings (root_dir : pathlib.Path) : Settings :=
  {| backend := "local"; root_dir := Some root_dir; base_url := None;
     headers := ∅; bucket := None; prefix := "" |}.

Definition HTTPSettings (base_url : string) (headers : gmap string string)
  : Settings :=
  {| backend := "http"; root_dir := None; base_url := Some base_url;
     headers := headers; bucket := None; prefix := "" |}.

Definition S3Settings (bucket prefix : string) : Settings :=
  {| backend := "s3"; root_dir := None; base_url := None;
     headers := ∅; bucket := Some bucket; prefix := prefix |}.

Definition GCSSettings (bucket prefix : string) : Settings :=
  {| backend := "gcs"; root_dir := None; base_url := None;
     headers := ∅; bucket := Some bucket; prefix := prefix |}.

(** The instances validation lets through: one of the four models, every
    required field set. *)
Inductive model : Settings → Prop :=
| model_local root_dir : model (LocalSettings root_dir)
| model_http base_url headers : model (HTTPSettings base_url headers)
| model_s3 bucket prefix : model (S3Settings bucket prefix)
| model_gcs bucket prefix : model (GCSSettings bucket prefix).

End settings.

(** ** [examples/download_s3.py] *)

Module PooledStorage.

Record t (T : Type) : Type := {
  backend : T;
  semaphore : asyncio.Semaphore
}.
Arguments backend {T} _.
Arguments semaphore {T} _.

Definition __init__ {T} (backend : T) (max_concurrent : Z) : M Process (t T) :=
  semaphore <- asyncio.Semaphore__init__ max_concurrent ;;
  ret {| backend := backend; semaphore := semaphore |}.

Definition get `{abc.StorageBackend T} (self : t T) (key : string)
  : asyncio.coro bytes :=
  asyncio.AsyncWith (semaphore self) (abc.get (backend self) key).

Definition put `{abc.StorageBackend T} (self : t T) (key : string)
    (file : BinaryIO) : asyncio.coro unit :=
  asyncio.AsyncWith (semaphore self) (abc.put (backend self) key file).

#[global] Instance as_backend `{abc.StorageBackend T} : abc.StorageBackend (t T) :=
  {| abc.put := put; abc.get := get |}.

End PooledStorage.

(** What [build_storage] returns: an instance of one of the four classes. *)
Inductive Storage : Type :=
| Local (self : LocalStorage.t)
| HTTP (self : HTTPStorage.t)
| S3 (self : S3Storage.t)
| GCS (self : GCSStorage.t).

#[global] Instance Storage_backend : abc.StorageBackend Storage :=
  {| abc.put := λ b, match b with
                     | Local self => abc.put self
                     | HTTP self => abc.put self
                     | S3 self => abc.put self
                     | GCS self => abc.put self
                     end;
     abc.get := λ b, match b with
                     | Local self => abc.get self
                     | HTTP self => abc.get self
                     | S3 self => abc.get self
                     | GCS self => abc.get self
                     end |}.


(** [assert x is not None] *)
Definition assert_not_None {S A} (x : option A) : M S A :=
  match x with
  | Some a => ret a
  | None => raise AssertionError
  end.

(** [HTTPStorage] and [GCSStorage] are built without [max_concurrent]: the
    parameter keeps its default. *)
Definition default_max_concurrent : Z := 1.

Definition build_storage (storage : settings.Settings) (max_concurrent : Z)
  : M Process Storage :=
  if decide (settings.backend storage = "local") then
    root_dir <- assert_not_None (settings.root_dir storage) ;;
    self <- LocalStorage.__init__ root_dir ;;
    ret (Local self)
  else if decide (settings.backend storage = "http") then
    base_url <- assert_not_None (settings.base_url storage) ;;
    self <- HTTPStorage.__init__ base_url (settings.headers storage)
              default_max_concurrent ;;
    ret (HTTP self)
  else if decide (settings.backend storage = "s3") then
    bucket <- assert_not_None (settings.bucket storage) ;;
    self <- S3Storage.__init__ bucket (settings.prefix storage) max_concurrent ;;
    ret (S3 self)
  else if decide (settings.backend storage = "gcs") then
    bucket <- assert_not_None (settings.bucket storage) ;;
    self <- GCSStorage.__init__ bucket (settings.prefix storage)
              default_max_concurrent ;;
    ret (GCS self)
  else raise (NotImplementedError "").

(** *** The event loop running a set of calls

    Any number of callers have each started one coroutine; the loop picks
    which one moves next.  A schedule is the list of its picks. *)

Module loop.

Inductive Task : Type :=
| task_of {A : Type} (t : asyncio.task A).

Record state : Type := {
  proc : Process;
  tasks : list Task
}.

Definition create_task {A} (c : asyncio.coro A) : Task :=
  task_of (asyncio.Start c).

Definition step (i : nat) (s : state) : option state :=
  match tasks s !! i with
  | Some (task_of t) =>
      match asyncio.step t (proc s) with
      | Some (t', p') =>
          Some {| proc := p'; tasks := <[i := task_of t']> (tasks s) |}
      | None => None
      end
  | None => None
  end.

Fixpoint run (schedule : list nat) (s : state) : option state :=
  match schedule with
  | [] => Some s
  | i :: schedule' =>
      match step i s with
      | Some s' => run schedule' s'
      | None => None
      end
  end.

(** A call through a wrapper with semaphore [sem] is delegating when it is
    inside the [async with sem] block and the wrapped call has not yet
    returned or raised. *)
Definition delegating (sem : asyncio.Semaphore) (k : Task) : bool :=
  match k with
  | task_of (asyncio.Holding s t) =>
      bool_decide (asyncio.id s = asyncio.id sem)
      && bool_decide (asyncio.finished t = None)
  | _ => false
  end.

Definition active (sem : asyncio.Semaphore) (s : state) : nat :=
  length (filter (λ k, delegating sem k = true) (tasks s)).

Definition permits_held (sem : asyncio.Semaphore) (s : state) : nat :=
  sum_list (map (λ k, match k with task_of t => asyncio.holding sem t end)
                (tasks s)).

Definition jobs_in_flight (s : state) : nat :=
  sum_list (map (λ k, match k with task_of t => asyncio.in_flight t end)
                (tasks s)).

End loop.

(** A call a client makes on a backend. *)
Inductive request : Type :=
| Get (key : string)
| Put (key : string) (file : BinaryIO).

Definition call `{abc.StorageBackend T} (self : T) (r : request) : loop.Task :=
  match r with
  | Get key => loop.create_task (abc.get self key)
  | Put key file => loop.create_task (abc.put self key file)
  end.

(** *** [tagged] and [download_images] *)

Definition tagged {A} (key : string) (c : asyncio.coro A)
  : asyncio.coro (string * A) :=
  asyncio.Bind c (λ r, asyncio.Sync (ret (key, r))).

Module download_images.

(** Where the body of [download_images] stands:
    - [AsCompleted n]: at [await fut] in the loop over
      [asyncio.as_completed(tasks)], [n] futures still to come;
    - [Putting i t n]: at [await output.put(image, io.BytesIO(result))] for
      the result of task [i], the call being at [t];
    - [Returned]: after the loop;
    - [Raised e]: left by the exception [e]. *)
Inductive frame : Type :=
| AsCompleted (remaining : nat)
| Putting (i : nat) (t : asyncio.task unit) (remaining : nat)
| Returned
| Raised (e : exn).

(** What an observer of the two backends sees (not part of the program). *)
Inductive event : Type :=
| Downloaded (i : nat)
| UploadStarted (i : nat)
| UploadFinished (i : nat).

#[global] Instance event_eq_dec : EqDecision event.
Proof. solve_decision. Defined.

Record state : Type := {
  proc : Process;
  tasks : list (asyncio.task (string * bytes));
  completed : list nat;
  main : frame;
  log : list event
}.

(** The state when [download_images] reaches its loop: one task per image,
    in the order of [images]; [as_completed] has nothing in its queue. *)
Definition init `{abc.StorageBackend Src} (images : list string) (input : Src)
    (p : Process) : state :=
  {| proc := p;
     tasks := map (λ image, asyncio.Start (tagged image (abc.get input image)))
                  images;
     completed := [];
     main := AsCompleted (length images);
     log := [] |}.

Inductive label : Type :=
| Task (i : nat)
| Main.

(** A task that finishes is put at the back of the queue of
    [as_completed]. *)
Definition step_task (i : nat) (s : state) : option state :=
  match tasks s !! i with
  | Some t =>
      match asyncio.step t (proc s) with
      | Some (t', p') =>
          let fin := bool_decide (is_Some (asyncio.finished t')) in
          Some {| proc := p';
                  tasks := <[i := t']> (tasks s);
                  completed := if fin then completed s ++ [i] else completed s;
                  main := main s;
                  log := if fin then log s ++ [Downloaded i] else log s |}
      | None => None
      end
  | None => None
  end.

Definition step_main `{abc.StorageBackend Dst} (output : Dst) (s : state)
  : option state :=
  match main s with
  | AsCompleted 0 =>
      Some {| proc := proc s; tasks := tasks s; completed := completed s;
              main := Returned; log := log s |}
  | AsCompleted (S remaining) =>
      match completed s with
      | [] => None
      | i :: queue =>
          match tasks s !! i with
          | Some (asyncio.Done (Return (image, result))) =>
              Some {| proc := proc s; tasks := tasks s; completed := queue;
                      main := Putting i
                                (asyncio.Start
                                   (abc.put output image (BytesIO result)))
                                remaining;
                      log := log s ++ [UploadStarted i] |}
          | Some (asyncio.Done (Raise e)) =>
              Some {| proc := proc s; tasks := tasks s; completed := queue;
                      main := Raised e; log := log s |}
          | _ => None
          end
      end
  | Putting i t remaining =>
      match t with
      | asyncio.Done (Return _) =>
          Some {| proc := proc s; tasks := tasks s; completed := completed s;
                  main := AsCompleted remaining;
                  log := log s ++ [UploadFinished i] |}
      | asyncio.Done (Raise e) =>
          Some {| proc := proc s; tasks := tasks s; completed := completed s;
                  main := Raised e; log := log s |}
      | _ =>
          match asyncio.step t (proc s) with
          | Some (t', p') =>
              Some {| proc := p'; tasks := tasks s; completed := completed s;
                      main := Putting i t' remaining; log := log s |}
          | None => None
          end
      end
  | Returned => None
  | Raised _ => None
  end.

Definition step `{abc.StorageBackend Dst} (output : Dst) (l : label) (s : state)
  : option state :=
  match l with
  | Task i => step_task i s
  | Main => step_main output s
  end.

Fixpoint run `{abc.StorageBackend Dst} (output : Dst) (schedule : list label)
    (s : state) : option state :=
  match schedule with
  | [] => Some s
  | l :: schedule' =>
      match step output l s with
      | Some s' => run output schedule' s'
      | None => None
      end
  end.

(** The tasks in the order they finished, and in the order their uploads
    were started. *)
Definition downloads (l : list event) : list nat :=
  omap (λ e, match e with Downloaded i => Some i | _ => None end) l.

Definition uploads (l : list event) : list nat :=
  omap (λ e, match e with UploadStarted i => Some i | _ => None end) l.

Definition uploaded (l : list event) : list nat :=
  omap (λ e, match e with UploadFinished i => Some i | _ => None end) l.

End download_images.

(** ** Predicates used in the proofs *)

Module invariants.

Import asyncio.

Definition held (sem : Semaphore) (k : loop.Task) : nat :=
  match k with loop.task_of t => holding sem t end.

Definition guarded_Task (sem : Semaphore) (k : loop.Task) : Prop :=
  match k with loop.task_of t => guarded_task sem t end.


Import download_images.

(** Every upload in the log starts after the download of the same task was
    logged. *)
Definition upload_after_download (l : list event) : Prop :=
  ∀ n i, l !! n = Some (UploadStarted i) →
         ∃ m, m < n ∧ l !! m = Some (Downloaded i).

(** How the log, the queue of [as_completed] and the place of the loop
    relate: the finished downloads are the uploads started, then (when a
    failed download stopped the loop) the task that failed, then the
    queue. *)
Definition control (s : state) : Prop :=
  let D := downloads (log s) in
  let U := uploads (log s) in
  let F := uploaded (log s) in
  match main s with
  | AsCompleted n =>
      D = U ++ completed s ∧ F = U ∧ n + length U = length (tasks s)
  | Putting i t n =>
      D = U ++ completed s ∧ U = F ++ [i] ∧ n + length U = length (tasks s)
  | Returned =>
      D = U ++ completed s ∧ F = U ∧ length U = length (tasks s)
  | Raised e =>
      (∃ i, D = U ++ i :: completed s ∧ F = U
            ∧ tasks s !! i = Some (Done (Raise e)))
      ∨ (∃ i, D = U ++ completed s ∧ U = F ++ [i])
  end.

Record inv (s : state) : Prop := {
  inv_done : ∀ i, i ∈ downloads (log s) → ∃ r, tasks s !! i = Some (Done r);
  inv_nodup : NoDup (downloads (log s));
  inv_order : upload_after_download (log s);
  inv_main : control s
}.

End invariants.

(** ** Concrete processes and schedules *)

Module scenarios.

Import asyncio.

Definition world0 : World :=
  {| fs := ∅; s3 := ∅; gcs := ∅; web := ∅; requests := [] |}.

(** A fresh process on an empty disk. *)
Definition process0 : Process := {| semaphores := []; io := world0 |}.

Definition payload : bytes := [Byte.x89; Byte.x50; Byte.x4e; Byte.x47].

Definition after {A} (c : coro A) (p : Process) : Process :=
  snd (run_until_complete 1 (Start c) p).

(** *** A local backend at [/tmp/x] *)

Definition tmp_x : pathlib.Path := ["tmp"; "x"].

Definition local0 : LocalStorage.t := {| LocalStorage.root := tmp_x |}.

(** The process after [LocalStorage(root=Path("/tmp/x"))]. *)
Definition process1 : Process := snd (LocalStorage.__init__ tmp_x process0).

(** The process after [put("a/b.bin", BytesIO(payload))]. *)
Definition process2 : Process :=
  after (LocalStorage.put local0 "a/b.bin" (BytesIO payload)) process1.


(** The process after the failing [put("d/..", ...)]. *)
Definition process_failed_put : Process :=
  after (LocalStorage.put local0 "d/.." (BytesIO payload)) process2.

(** *** An S3 and a GCS backend with two permits each, a web server *)

Definition s3_0 : S3Storage.t :=
  {| S3Storage.bucket := "images"; S3Storage.prefix := "raw/";
     S3Storage._executor := {| _max_workers := 2 |};
     S3Storage._semaphore := {| id := 0 |} |}.

Definition process_s3 : Process :=
  snd (S3Storage.__init__ "/images/" "/raw/" 2 process0).




(** *** An HTTP backend behind a pool of two permits, and three callers *)

Definition http0 : HTTPStorage.t :=
  {| HTTPStorage.base_url := "http://host";
     HTTPStorage.headers := ∅;
     HTTPStorage._executor := {| _max_workers := 1 |};
     HTTPStorage._semaphore := {| id := 0 |} |}.

Definition process_http : Process :=
  snd (HTTPStorage.__init__ "http://host/" ∅ 1 process0).

Definition pool0 : PooledStorage.t HTTPStorage.t :=
  {| PooledStorage.backend := http0; PooledStorage.semaphore := {| id := 1 |} |}.

Definition process_pool : Process :=
  snd (PooledStorage.__init__ http0 2 process_http).

Definition three_calls : list request :=
  [Get "a"; Put "b" (BytesIO []); Get "c"].

(** The first and the third caller have entered. *)
Definition after_three_moves : loop.state :=
  default {| loop.proc := process_pool; loop.tasks := [] |}
    (loop.run [0; 2; 0]
       {| loop.proc := process_pool; loop.tasks := map (call pool0) three_calls |}).

(** [put] through the pool on the read-only backend. *)
Definition after_failed_put : Process :=
  snd (run_until_complete 3
         (Start (PooledStorage.put pool0 "b" (BytesIO []))) process_pool).

(** *** Two local backends on one disk: [/src] holds the objects to copy,
    [/dst] is empty *)

Import download_images.

Definition src : LocalStorage.t := {| LocalStorage.root := ["src"] |}.

Definition dst : LocalStorage.t := {| LocalStorage.root := ["dst"] |}.

(** Only ["b"] is stored in [/src]. *)
Definition disk_b : Process :=
  after (LocalStorage.put src "b" (BytesIO payload))
    (snd (LocalStorage.__init__ ["dst"]
            (snd (LocalStorage.__init__ ["src"] process0)))).

(** ["a"] and ["b"] are stored in [/src]. *)
Definition disk_ab : Process :=
  after (LocalStorage.put src "a" (BytesIO [Byte.x00])) disk_b.

(** The task of ["b"] finishes first and is uploaded while the task of
    ["a"] has not moved. *)
Definition b_before_a : list label :=
  [Task 1; Task 1; Task 1; Task 1; Main; Main; Main;
   Task 0; Task 0; Task 0; Task 0; Main; Main; Main; Main].

Definition copied_b_then_a : state :=
  default (init ["a"; "b"] src disk_ab)
    (run dst b_before_a (init ["a"; "b"] src disk_ab)).

(** The download of ["a"] fails, the download of ["b"] succeeds, and the
    loop of [download_images] awaits the first of them. *)
Definition a_fails : list label :=
  [Task 0; Task 0; Task 0; Task 1; Task 1; Task 1; Task 1; Main].

Definition stopped_at_a : state :=
  default (init ["a"; "b"] src disk_b)
    (run dst a_fails (init ["a"; "b"] src disk_b)).

(** A pool built with no permit at all. *)
Definition pool_closed : PooledStorage.t HTTPStorage.t :=
  {| PooledStorage.backend := http0;
     PooledStorage.semaphore := {| asyncio.id := 1 |} |}.

Definition process_closed : Process :=
  snd (PooledStorage.__init__ http0 0 process_http).

(** Both downloads are over and the loop has not moved yet. *)
Definition both_finished : state :=
  default (init ["a"; "b"] src disk_b)
    (run dst [Task 0; Task 0; Task 0; Task 1; Task 1; Task 1; Task 1]
       (init ["a"; "b"] src disk_b)).

(** Three callers on the S3 backend: two jobs in flight, the third caller
    waits. *)
Definition s3_two_in_flight : loop.state :=
  default {| loop.proc := process_s3; loop.tasks := [] |}
    (loop.run [0; 0; 2; 2]
       {| loop.proc := process_s3; loop.tasks := map (call s3_0) three_calls |}).

End scenarios.

(** ** Relations between two states of the directory tree *)

Module tree.

(** Nothing that existed was removed or changed, and what was added is
    directories only. *)
Definition grows (fs fs' : posix.FS) : Prop :=
  (∀ p n, posix.kind fs p = Some n → posix.kind fs' p = Some n)
  ∧ (∀ p data, posix.kind fs' p = Some (posix.File data) →
               posix.kind fs p = Some (posix.File data)).

(** The regular files are the same, with the same content. *)
Definition same_files (fs fs' : posix.FS) : Prop :=
  ∀ p data, posix.kind fs' p = Some (posix.File data)
            ↔ posix.kind fs p = Some (posix.File data).

(** The process with its directory tree replaced. *)
Definition set_fs (fs' : posix.FS) (p : Process) : Process :=
  {| semaphores := semaphores p;
     io := {| fs := fs'; s3 := s3 (io p); gcs := gcs (io p);
              web := web (io p); requests := requests (io p) |} |}.


End tree.

(** ** The process after a request, after a stored object *)

Module net.





End net.

(** ** Predicates on the tasks of the event loop *)

Module tasks.

(** The call of the task has returned or raised. *)
Definition over (k : loop.Task) : Prop :=
  match k with loop.task_of t => is_Some (asyncio.finished t) end.

End tasks.

(** ** Predicates on the tasks of [download_images] *)

Module batch.

Import asyncio download_images.

(** The stages of the task [tagged(key, coro)]. *)
Definition tagged_with (key : string) (t : task (string * bytes)) : Prop :=
  (∃ c : coro bytes, t = Start (tagged key c))
  ∨ (∃ t0 : task bytes, t = Await t0 (λ r, Sync (ret (key, r))))
  ∨ (∃ r : bytes, t = Start (Sync (ret (key, r))))
  ∨ (∃ r : bytes, t = Done (Return (key, r)))
  ∨ (∃ e : exn, t = Done (Raise e)).

(** The task of every image is at a stage of [tagged] for that image. *)
Definition tags_kept (images : list string) (s : state) : Prop :=
  length (tasks s) = length images
  ∧ ∀ i key t, images !! i = Some key → tasks s !! i = Some t →
               tagged_with key t.

(** Every finished task was logged as downloaded. *)
Definition logged (s : state) : Prop :=
  ∀ i r, tasks s !! i = Some (Done r) → i ∈ downloads (log s).

End batch.

(** * Properties *)

(** ** Calls that run in one piece *)

Section monad_facts.

Lemma on_fs_frame {A} (m : M posix.FS A) (w : World) (r : result A) :
  m (fs w) = (r, fs w) → on_fs m w = (r, w).
Proof.
  intros Hm. unfold on_fs. rewrite Hm. by destruct w.
Qed.

Lemma on_io_frame {A} (m : M World A) (p : Process) (r : result A) :
  m (io p) = (r, io p) → on_io m p = (r, p).
Proof.
  intros Hm. unfold on_io. rewrite Hm. by destruct p.
Qed.

Lemma on_io_on_fs {A} (m : M posix.FS A) (p : Process) :
  on_io (on_fs m) p
  = (fst (m (fs (io p))),
     {| semaphores := semaphores p;
        io := {| fs := snd (m (fs (io p))); s3 := s3 (io p); gcs := gcs (io p);
                 web := web (io p); requests := requests (io p) |} |}).
Proof. unfold on_io, on_fs. by destruct (m (fs (io p))). Qed.

Lemma on_io_semaphores {A} (m : M World A) (p : Process) :
  semaphores (snd (on_io m p)) = semaphores p.
Proof. unfold on_io. by destruct (m (io p)). Qed.

Lemma step_sync {A} (m : M World A) (p : Process) :
  asyncio.step (asyncio.Start (asyncio.Sync m)) p
  = Some (asyncio.Done (fst (on_io m p)), snd (on_io m p)).
Proof. simpl. by destruct (on_io m p). Qed.

Lemma run_sync {A} (m : M World A) (fuel : nat) (p : Process) :
  asyncio.run_until_complete (S fuel) (asyncio.Start (asyncio.Sync m)) p
  = (Some (fst (on_io m p)), snd (on_io m p)).
Proof.
  simpl. destruct (on_io m p) as [r p']. by destruct fuel.
Qed.

Lemma append_assoc (a b c : string) : (a +:+ b) +:+ c = a +:+ b +:+ c.
Proof.
  induction a as [|x a IH]; [done |].
  change (String x ((a +:+ b) +:+ c) = String x (a +:+ b +:+ c)).
  by rewrite IH.
Qed.

End monad_facts.

(** ** The S3 backend: object names *)

Module S3Facts.

Import invariants scenarios.

Lemma init_fields bucket prefix N p self p' :
  S3Storage.__init__ bucket prefix N p = (Return self, p') →
  S3Storage.bucket self = str.strip "/" bucket
  ∧ S3Storage.prefix self = str.strip "/" prefix +:+ "/".
Proof.
  unfold S3Storage.__init__, ThreadPoolExecutor__init__,
    asyncio.Semaphore__init__, bind, ret, raise.
  destruct (N <=? 0)%Z; [done |].
  destruct (N <? 0)%Z; [done |].
  intros [= <- _]. done.
Qed.

(** C10.  On an S3 backend built from [bucket] and [prefix], [put] and
    [get] for the key [key] both hand the client the object name
    [prefix.strip("/") + "/" + key.lstrip("/")]; with the default prefix
    (the empty string) that name begins with ["/"]. *)
Theorem object_name bucket prefix N p self p' key file :
  S3Storage.__init__ bucket prefix N p = (Return self, p') →
  let name := str.strip "/" prefix +:+ "/" +:+ str.lstrip "/" key in
  S3Storage.put self key file
  = asyncio.AsyncWith (S3Storage._semaphore self)
      (asyncio.RunInExecutor
         (boto3.upload_fileobj file (str.strip "/" bucket) name))
  ∧ S3Storage.get self key
    = asyncio.AsyncWith (S3Storage._semaphore self)
        (asyncio.RunInExecutor
           (boto3.download_fileobj (str.strip "/" bucket) name))
  ∧ (prefix = "" → str.startswith "/" name = true).
Proof.
  intros Hinit name. destruct (init_fields _ _ _ _ _ _ Hinit) as [Hb Hp].
  unfold S3Storage.put, S3Storage.get. rewrite Hb, Hp, append_assoc.
  repeat split. intros ->. reflexivity.
Qed.

Lemma object_name_witness :
  let self := {| S3Storage.bucket := "images"; S3Storage.prefix := "raw/";
                 S3Storage._executor := {| _max_workers := 8 |};
                 S3Storage._semaphore := {| asyncio.id := 0 |} |} in
  S3Storage.put self "/file1.bin" (BytesIO [])
  = asyncio.AsyncWith {| asyncio.id := 0 |}
      (asyncio.RunInExecutor
         (boto3.upload_fileobj (BytesIO []) "images" "raw/file1.bin"))
  ∧ S3Storage.get self "/file1.bin"
    = asyncio.AsyncWith {| asyncio.id := 0 |}
        (asyncio.RunInExecutor
           (boto3.download_fileobj "images" "raw/file1.bin"))
  ∧ ("/raw/" = "" → str.startswith "/" "raw/file1.bin" = true).
Proof.
  exact (object_name "/images/" "/raw/" 8 process0 _ _ "/file1.bin" (BytesIO [])
           eq_refl).
Defined.

(** With the default prefix the object written for ["file1.bin"] is
    ["/file1.bin"]. *)
Example default_prefix_name :
  ∃ self p, S3Storage.__init__ "images" "" 8 process0 = (Return self, p)
  ∧ S3Storage.prefix self +:+ str.lstrip "/" "file1.bin" = "/file1.bin".
Proof. eexists _, _. split; reflexivity. Qed.

End S3Facts.

(** ** The HTTP backend is read-only *)

Module HTTPFacts.

Import invariants scenarios.

(** C9.  [put] on the HTTP backend raises, for every key and payload, the
    error that says the backend is read-only (the [Unsupported] failure, a
    [RuntimeError] in the code); it sends no request, waits for nothing and
    leaves the process and the world as they were. *)
Theorem put_read_only (self : HTTPStorage.t) (key : string) (file : BinaryIO)
    (fuel : nat) (p : Process) :
  asyncio.run_until_complete (S fuel)
    (asyncio.Start (HTTPStorage.put self key file)) p
  = (Some (Raise (RuntimeError "HTTP backend is read-only")), p)
  ∧ asyncio.step (asyncio.Start (HTTPStorage.put self key file)) p
    = Some (asyncio.Done (Raise (RuntimeError "HTTP backend is read-only")), p).
Proof.
  unfold HTTPStorage.put. rewrite run_sync.
  assert (on_io (raise (RuntimeError "HTTP backend is read-only")) p
          = (Raise (RuntimeError "HTTP backend is read-only") : result unit, p))
    as Hio by (by apply on_io_frame).
  split; [by rewrite Hio |]. by rewrite step_sync, Hio.
Qed.

End HTTPFacts.

(** ** The local backend *)

Module LocalFacts.

Import invariants scenarios.

(** Writing a file where there was no directory changes no path
    resolution that succeeded before. *)
Lemma walk_insert_file (fs : posix.FS) (c : list string) (data : bytes)
    (cs cur c' : list string) :
  posix.kind fs c ≠ Some posix.Dir →
  posix.walk fs cur cs = inr c' →
  posix.walk (<[c := posix.File data]> fs) cur cs = inr c'.
Proof.
  intros Hc. revert cur. induction cs as [|x cs IH]; intros cur; simpl; [done |].
  destruct (posix.kind fs cur) as [[d|]|] eqn:Hcur; try done.
  assert (posix.kind (<[c := posix.File data]> fs) cur = Some posix.Dir) as ->.
  { destruct cur as [|y cur]; [done |]. simpl in *.
    rewrite lookup_insert_ne; [done |]. intros ->.
    by apply Hc. }
  apply IH.
Qed.

Lemma kind_insert_file (fs : posix.FS) (c : list string) (data : bytes) :
  posix.kind fs c ≠ Some posix.Dir →
  posix.kind (<[c := posix.File data]> fs) c = Some (posix.File data).
Proof.
  intros Hc. destruct c as [|x c]; [done |]. simpl. by rewrite lookup_insert_eq.
Qed.

(** After a successful [write_bytes] the path exists and reads back what
    was written. *)
Lemma write_then_read (path : pathlib.Path) (data : bytes) (fs fs' : posix.FS) :
  pathlib.write_bytes path data fs = (Return (), fs') →
  pathlib.exists_ path fs' = (Return true, fs')
  ∧ pathlib.read_bytes path fs' = (Return data, fs').
Proof.
  unfold pathlib.write_bytes, posix.creat, pathlib.exists_, pathlib.read_bytes,
    posix.stat, posix.slurp, posix.namei.
  destruct (posix.walk fs [] path) as [e|c] eqn:Hwalk; [done |].
  assert (posix.kind fs c ≠ Some posix.Dir → fs' = <[c := posix.File data]> fs →
          posix.walk fs' [] path = inr c
          ∧ posix.kind fs' c = Some (posix.File data)) as Hpost.
  { intros Hc ->. split; [by apply walk_insert_file | by apply kind_insert_file]. }
  destruct (posix.kind fs c) as [[d|]|] eqn:Hc; intros [= <-];
    destruct Hpost as [-> ->]; done.
Qed.

Lemma put_get_fs (root : pathlib.Path) (key : string) (data : bytes)
    (fs0 fs2 : posix.FS) :
  let path := pathlib.truediv root key in
  (pathlib.mkdir (pathlib.parent path) true true ;;;
   pathlib.write_bytes path data) fs0 = (Return (), fs2) →
  (path_exists <- pathlib.exists_ path ;;
   if negb path_exists then raise (FileNotFoundError key)
   else out <- pathlib.read_bytes path ;; ret out) fs2
  = (Return data, fs2).
Proof.
  intros path. unfold bind at 1.
  destruct (pathlib.mkdir _ true true fs0) as [[[]|e] fs1]; [| done].
  intros Hw. destruct (write_then_read _ _ _ _ Hw) as [Hex Hrd].
  unfold bind. rewrite Hex. simpl. by rewrite Hrd.
Qed.

(** C4, as the code has it.  On a local backend, whenever [put(k, file)]
    returns without raising, a [get(k)] that follows returns exactly the
    bytes [put] read from [file], and leaves the backend as [put] left it;
    for [file = BytesIO(p)] these bytes are [p]. *)
Theorem put_then_get (self : LocalStorage.t) (key : string) (file : BinaryIO)
    (fuel fuel' : nat) (p p' : Process) :
  asyncio.run_until_complete fuel
    (asyncio.Start (LocalStorage.put self key file)) p = (Some (Return ()), p') →
  asyncio.run_until_complete (S fuel')
    (asyncio.Start (LocalStorage.get self key)) p'
  = (Some (Return (read file)), p')
  ∧ ∀ payload, file = BytesIO payload → read file = payload.
Proof.
  intros Hput. split; [| by intros payload ->].
  destruct fuel as [|fuel]; [done |].
  unfold LocalStorage.put in Hput. rewrite run_sync, on_io_on_fs in Hput.
  unfold LocalStorage.get. rewrite run_sync, on_io_on_fs.
  set (m := (pathlib.mkdir _ true true ;;; pathlib.write_bytes _ _)) in *.
  destruct (m (fs (io p))) as [r fs2] eqn:Hm.
  injection Hput as Hres Hp'. simpl in Hres. subst r.
  assert (fs (io p') = fs2) as Hfs by (by subst p').
  pose proof (put_get_fs _ _ _ _ _ Hm) as Hget. simpl in Hget.
  rewrite Hfs, Hget. simpl. rewrite <- Hfs. by destruct p' as [? []].
Qed.


Lemma put_then_get_witness :
  asyncio.run_until_complete 1
    (asyncio.Start (LocalStorage.put local0 "a/b.bin" (BytesIO payload)))
    process1 = (Some (Return ()), process2)
  ∧ (asyncio.run_until_complete 1
       (asyncio.Start (LocalStorage.get local0 "a/b.bin")) process2
     = (Some (Return (read (BytesIO payload))), process2)
     ∧ ∀ b, BytesIO payload = BytesIO b → read (BytesIO payload) = b).
Proof.
  split; [vm_compute; reflexivity |].
  apply (put_then_get local0 "a/b.bin" (BytesIO payload) 1 0 process1 process2).
  vm_compute; reflexivity.
Defined.

(** C4 as stated fails at the empty key: ["/tmp/x" / ""] is the root
    directory of the backend itself, so [put] raises [IsADirectoryError]
    and so does the [get] that follows; no payload comes back. *)
Lemma round_trip_counterexample :
  asyncio.run_until_complete 1
    (asyncio.Start (LocalStorage.put local0 "" (BytesIO payload))) process1
  = (Some (Raise (IsADirectoryError "/tmp/x")), process1)
  ∧ asyncio.run_until_complete 1
      (asyncio.Start (LocalStorage.get local0 "")) process1
    = (Some (Raise (IsADirectoryError "/tmp/x")), process1)
  ∧ fst (asyncio.run_until_complete 1
           (asyncio.Start (LocalStorage.get local0 ""))
           (snd (asyncio.run_until_complete 1
                   (asyncio.Start (LocalStorage.put local0 "" (BytesIO payload)))
                   process1)))
    ≠ Some (Return payload).
Proof.
  split; [vm_compute; reflexivity |].
  split; [vm_compute; reflexivity |].
  vm_compute; discriminate.
Qed.

(** A key that names an existing directory fails the same way. *)
Example put_on_directory :
  fst (asyncio.run_until_complete 1
         (asyncio.Start (LocalStorage.put local0 "a" (BytesIO payload)))
         process2)
  = Some (Raise (IsADirectoryError "/tmp/x/a")).
Proof. vm_compute; reflexivity. Qed.



(** Where the path is an existing directory it is the read that fails. *)
Example get_on_directory :
  fst (asyncio.run_until_complete 1
         (asyncio.Start (LocalStorage.get local0 "a")) process2)
  = Some (Raise (IsADirectoryError "/tmp/x/a")).
Proof. vm_compute; reflexivity. Qed.

End LocalFacts.

(** ** Semaphores: permits are conserved *)

Module SemaphoreFacts.

Import invariants scenarios.

Import asyncio.

Lemma value_set_value_same (s sem : Semaphore) (v : Z) (p : Process) :
  id s = id sem → id sem < length (semaphores p) →
  _value (set_value s v p) sem = v.
Proof.
  intros Hid Hlt. unfold _value, set_value. simpl. rewrite Hid.
  by rewrite list_lookup_insert_eq.
Qed.

Lemma value_set_value_other (s sem : Semaphore) (v : Z) (p : Process) :
  id s ≠ id sem → _value (set_value s v p) sem = _value p sem.
Proof.
  intros Hid. unfold _value, set_value. simpl.
  by rewrite list_lookup_insert_ne.
Qed.

Lemma value_same_id (s sem : Semaphore) (p : Process) :
  id s = id sem → _value p s = _value p sem.
Proof. unfold _value. by intros ->. Qed.

Lemma length_set_value (s : Semaphore) (v : Z) (p : Process) :
  length (semaphores (set_value s v p)) = length (semaphores p).
Proof. unfold set_value. simpl. apply length_insert. Qed.

Lemma value_on_io {A} (m : M World A) (p : Process) (sem : Semaphore) :
  _value (snd (on_io m p)) sem = _value p sem.
Proof. unfold _value. by rewrite on_io_semaphores. Qed.

(** What a move of one coroutine does to a semaphore that exists: the
    permits available plus the permits the coroutine holds stay the same,
    no semaphore is created or lost, and the count stays non-negative. *)
Lemma step_conserves {A} (t : task A) :
  ∀ (t' : task A) (p p' : Process) (sem : Semaphore),
    id sem < length (semaphores p) →
    step t p = Some (t', p') →
    (_value p' sem + Z.of_nat (holding sem t')
     = _value p sem + Z.of_nat (holding sem t))%Z
    ∧ length (semaphores p') = length (semaphores p)
    ∧ ((0 ≤ _value p sem)%Z → (0 ≤ _value p' sem)%Z).
Proof.
  induction t as [A c | A m | A s t IH | A B t IH k | A r];
    intros t' p p' sem Hlt Hstep.
  - destruct c as [m | m | s body | B c k]; simpl in Hstep.
    + destruct (on_io m p) as [r p1] eqn:Hio. injection Hstep as <- <-.
      replace p1 with (snd (on_io m p)) by (by rewrite Hio).
      rewrite value_on_io, on_io_semaphores. done.
    + injection Hstep as <- <-. done.
    + destruct (0 <? _value p s)%Z eqn:Hpos; [| done].
      injection Hstep as <- <-. apply Z.ltb_lt in Hpos.
      rewrite length_set_value. simpl.
      destruct (decide (id s = id sem)) as [Heq | Hne].
      * rewrite value_set_value_same by done.
        rewrite (value_same_id s sem) in * by done. lia.
      * rewrite value_set_value_other by done. lia.
    + injection Hstep as <- <-. done.
  - simpl in Hstep. destruct (on_io m p) as [r p1] eqn:Hio.
    injection Hstep as <- <-.
    replace p1 with (snd (on_io m p)) by (by rewrite Hio).
    rewrite value_on_io, on_io_semaphores. done.
  - destruct (finished t) as [r|] eqn:Hfin.
    + destruct t; try done. simpl in Hstep. injection Hstep as <- <-.
      rewrite length_set_value. simpl.
      destruct (decide (id s = id sem)) as [Heq | Hne].
      * rewrite value_set_value_same by done.
        rewrite (value_same_id s sem) in * by done. lia.
      * rewrite value_set_value_other by done. lia.
    + assert (step (Holding s t) p
              = match step t p with
                | Some (t'', p'') => Some (Holding s t'', p'')
                | None => None
                end) as Heq by (by destruct t).
      rewrite Heq in Hstep.
      destruct (step t p) as [[t'' p'']|] eqn:Ht; [| done].
      injection Hstep as <- <-.
      destruct (IH _ _ _ sem Hlt Ht) as (Hsum & Hlen & Hpos).
      simpl. repeat split; [lia | done | done].
  - destruct (finished t) as [r|] eqn:Hfin.
    + destruct t; try done. simpl in Hstep.
      destruct r0; injection Hstep as <- <-; done.
    + assert (step (Await t k) p
              = match step t p with
                | Some (t'', p'') => Some (Await t'' k, p'')
                | None => None
                end) as Heq by (by destruct t).
      rewrite Heq in Hstep.
      destruct (step t p) as [[t'' p'']|] eqn:Ht; [| done].
      injection Hstep as <- <-.
      destruct (IH _ _ _ sem Hlt Ht) as (Hsum & Hlen & Hpos).
      simpl. done.
  - done.
Qed.

End SemaphoreFacts.

(** ** The event loop: the permits of a semaphore are conserved *)

Module LoopFacts.

Import invariants scenarios.

Import asyncio.

Lemma sum_list_insert {X} (f : X → nat) (l : list X) (i : nat) (x y : X) :
  l !! i = Some x →
  sum_list (map f (<[i := y]> l)) + f x = sum_list (map f l) + f y.
Proof.
  revert i. induction l as [|z l IH]; intros [|i] Hi; simpl in *; try done.
  - injection Hi as ->. lia.
  - specialize (IH i Hi). lia.
Qed.

Lemma loop_step_conserves (sem : Semaphore) (i : nat) (s s' : loop.state) :
  id sem < length (semaphores (loop.proc s)) →
  loop.step i s = Some s' →
  (_value (loop.proc s') sem + Z.of_nat (loop.permits_held sem s')
   = _value (loop.proc s) sem + Z.of_nat (loop.permits_held sem s))%Z
  ∧ length (semaphores (loop.proc s')) = length (semaphores (loop.proc s))
  ∧ ((0 ≤ _value (loop.proc s) sem)%Z → (0 ≤ _value (loop.proc s') sem)%Z).
Proof.
  intros Hlt. unfold loop.step.
  destruct (loop.tasks s !! i) as [[A t]|] eqn:Hi; [| done].
  destruct (step t (loop.proc s)) as [[t' p']|] eqn:Ht; [| done].
  intros [= <-]. simpl.
  destruct (SemaphoreFacts.step_conserves t _ _ _ sem Hlt Ht) as (Hsum & Hlen & Hpos).
  repeat split; [| done | done].
  unfold loop.permits_held. simpl.
  pose proof (sum_list_insert (held sem) _ _ _ (loop.task_of t') Hi) as Hins.
  unfold held in Hins at 2 4. unfold held in Hins. lia.
Qed.

Lemma schedule_conserves (sem : Semaphore) (schedule : list nat) :
  ∀ s s' : loop.state,
    id sem < length (semaphores (loop.proc s)) →
    loop.run schedule s = Some s' →
    (_value (loop.proc s') sem + Z.of_nat (loop.permits_held sem s')
     = _value (loop.proc s) sem + Z.of_nat (loop.permits_held sem s))%Z
    ∧ ((0 ≤ _value (loop.proc s) sem)%Z → (0 ≤ _value (loop.proc s') sem)%Z).
Proof.
  induction schedule as [|i schedule IH]; intros s s' Hlt; simpl.
  - by intros [= <-].
  - destruct (loop.step i s) as [s1|] eqn:Hstep; [| done]. intros Hrun.
    destruct (loop_step_conserves sem i s s1 Hlt Hstep) as (Hsum & Hlen & Hpos).
    destruct (IH s1 s') as (Hsum' & Hpos'); [lia | done |].
    split; [lia | auto].
Qed.


Lemma calls_hold_nothing `{abc.StorageBackend T} (self : T) (sem : Semaphore)
    (requests : list request) (p : Process) :
  loop.permits_held sem
    {| loop.proc := p; loop.tasks := map (call self) requests |} = 0.
Proof.
  unfold loop.permits_held. simpl.
  induction requests as [|r requests IH]; [done |].
  simpl. rewrite IH. by destruct r.
Qed.

Lemma semaphore_init (N : Z) (p p' : Process) (sem : Semaphore) :
  Semaphore__init__ N p = (Return sem, p') →
  (0 ≤ N)%Z ∧ id sem < length (semaphores p') ∧ _value p' sem = N
  ∧ io p' = io p.
Proof.
  unfold Semaphore__init__. destruct (N <? 0)%Z eqn:HN; [done |].
  intros [= <- <-]. apply Z.ltb_ge in HN.
  unfold _value. simpl. rewrite length_app. simpl.
  repeat split; [done | lia |].
  rewrite lookup_app_r by done. by rewrite Nat.sub_diag.
Qed.


Lemma finished_is_Done {A} (t : task A) (r : result A) :
  finished t = Some r → t = Done r.
Proof. destruct t; try done. by intros [= ->]. Qed.

End LoopFacts.

(** ** Executor jobs submitted under a semaphore *)

Module GuardFacts.

Import invariants scenarios.

Import asyncio.

Lemma in_flight_le_1 {A} (t : task A) : (in_flight t ≤ 1)%nat.
Proof. induction t; simpl; lia. Qed.

Lemma guarded_in_flight {A} (sem : Semaphore) (t : task A) :
  guarded_task sem t → (in_flight t ≤ holding sem t)%nat.
Proof.
  induction t as [A c | A m | A s t IH | A B t IH k | A r]; simpl;
    try done; try lia.
  - intros [Hid | Hg].
    + rewrite decide_True by done. pose proof (in_flight_le_1 t). lia.
    + specialize (IH Hg). lia.
  - intros [Hg _]. auto.
Qed.

Lemma step_guarded {A} (sem : Semaphore) (t : task A) :
  ∀ (t' : task A) (p p' : Process),
    guarded_task sem t → step t p = Some (t', p') → guarded_task sem t'.
Proof.
  induction t as [A c | A m | A s t IH | A B t IH k | A r];
    intros t' p p' Hg Hstep.
  - destruct c as [m | m | s body | B c k]; simpl in Hstep, Hg.
    + destruct (on_io m p). by injection Hstep as <- <-.
    + done.
    + destruct (0 <? _value p s)%Z; [| done]. by injection Hstep as <- <-.
    + by injection Hstep as <- <-.
  - done.
  - destruct (finished t) as [r|] eqn:Hfin.
    + destruct t; try done. simpl in Hstep. by injection Hstep as <- <-.
    + assert (step (Holding s t) p
              = match step t p with
                | Some (t'', p'') => Some (Holding s t'', p'')
                | None => None
                end) as Heq by (by destruct t).
      rewrite Heq in Hstep.
      destruct (step t p) as [[t'' p'']|] eqn:Ht; [| done].
      injection Hstep as <- <-. simpl in *.
      destruct Hg as [Hid | Hg]; [by left | right; eauto].
  - destruct (finished t) as [r|] eqn:Hfin.
    + destruct t; try done. simpl in Hstep, Hg. destruct Hg as [_ Hk].
      destruct r0; injection Hstep as <- <-; simpl; auto.
    + assert (step (Await t k) p
              = match step t p with
                | Some (t'', p'') => Some (Await t'' k, p'')
                | None => None
                end) as Heq by (by destruct t).
      rewrite Heq in Hstep.
      destruct (step t p) as [[t'' p'']|] eqn:Ht; [| done].
      injection Hstep as <- <-. simpl in *.
      destruct Hg as [Hg Hk]. split; eauto.
  - done.
Qed.

Lemma run_guarded (sem : Semaphore) (schedule : list nat) :
  ∀ s s' : loop.state,
    Forall (guarded_Task sem) (loop.tasks s) →
    loop.run schedule s = Some s' →
    Forall (guarded_Task sem) (loop.tasks s').
Proof.
  induction schedule as [|i schedule IH]; intros s s' Hall; simpl.
  - by intros [= <-].
  - unfold loop.step.
    destruct (loop.tasks s !! i) as [[A t]|] eqn:Hi; [| done].
    destruct (step t (loop.proc s)) as [[t' p']|] eqn:Ht; [| done].
    apply IH. simpl. apply Forall_insert; [done |].
    apply (step_guarded sem t t' _ _ (proj1 (Forall_lookup _ _) Hall i _ Hi) Ht).
Qed.

Lemma guarded_jobs (sem : Semaphore) (s : loop.state) :
  Forall (guarded_Task sem) (loop.tasks s) →
  (loop.jobs_in_flight s ≤ loop.permits_held sem s)%nat.
Proof.
  unfold loop.jobs_in_flight, loop.permits_held.
  induction 1 as [|[A t] l Hg _ IH]; simpl; [done |].
  pose proof (guarded_in_flight sem t Hg). lia.
Qed.

(** Calls whose executor jobs all go through a semaphore that starts with
    [n] permits never have more than [n] jobs in flight. *)
Lemma guarded_bound `{abc.StorageBackend T} (self : T) (sem : Semaphore) (n : Z)
    (p : Process) (requests : list request) (schedule : list nat)
    (s : loop.state) :
  id sem < length (semaphores p) → _value p sem = n → (0 ≤ n)%Z →
  (∀ r, guarded_Task sem (call self r)) →
  loop.run schedule {| loop.proc := p; loop.tasks := map (call self) requests |}
  = Some s →
  (Z.of_nat (loop.jobs_in_flight s) ≤ n)%Z.
Proof.
  intros Hlt Hval Hn Hg Hrun.
  destruct (LoopFacts.schedule_conserves sem schedule
              {| loop.proc := p; loop.tasks := map (call self) requests |}
              s Hlt Hrun) as (Hsum & Hpos).
  simpl in Hsum, Hpos. rewrite LoopFacts.calls_hold_nothing, Hval in Hsum.
  rewrite Hval in Hpos.
  assert (Forall (guarded_Task sem) (loop.tasks s)) as Hall.
  { apply (run_guarded sem schedule _ _) in Hrun; [done |]. simpl.
    apply Forall_map, Forall_forall. intros r _. apply Hg. }
  pose proof (guarded_jobs sem s Hall). lia.
Qed.



End GuardFacts.

(** ** [PooledStorage]: the concurrency bound and the release of permits *)

Module PooledFacts.

Import invariants scenarios.

Import asyncio.

Lemma init_semaphore {T} (backend : T) (N : Z) (p p' : Process)
    (self : PooledStorage.t T) :
  PooledStorage.__init__ backend N p = (Return self, p') →
  (0 ≤ N)%Z
  ∧ id (PooledStorage.semaphore self) < length (semaphores p')
  ∧ _value p' (PooledStorage.semaphore self) = N.
Proof.
  unfold PooledStorage.__init__, bind, ret.
  destruct (Semaphore__init__ N p) as [[sem|e] p1] eqn:Hsem; [| done].
  intros [= <- <-]. simpl.
  destruct (LoopFacts.semaphore_init _ _ _ _ Hsem) as (? & ? & ? & _). done.
Qed.



(** With both permits taken the third caller cannot enter. *)
Example third_caller_waits :
  loop.active (PooledStorage.semaphore pool0) after_three_moves = 2
  ∧ loop.step 1 after_three_moves = None.
Proof. split; vm_compute; reflexivity. Qed.




End PooledFacts.

(** ** [build_storage] *)

Module FactoryFacts.

Import invariants scenarios.

Import asyncio.




Lemma pool_init {X} (f : ThreadPoolExecutor → Semaphore → X) (n : Z) (p : Process) :
  (1 ≤ n)%Z →
  (executor <- ThreadPoolExecutor__init__ n ;;
   semaphore <- Semaphore__init__ n ;;
   ret (f executor semaphore)) p
  = (Return (f {| _max_workers := n |} {| id := length (semaphores p) |}),
     {| semaphores := semaphores p ++ [n]; io := io p |}).
Proof.
  intros Hn. unfold bind, ThreadPoolExecutor__init__, Semaphore__init__, ret, raise.
  destruct (n <=? 0)%Z eqn:H0; [apply Z.leb_le in H0; lia |].
  destruct (n <? 0)%Z eqn:H1; [apply Z.ltb_lt in H1; lia |].
  reflexivity.
Qed.

Lemma fresh_semaphore (n : Z) (p : Process) :
  let sem := {| id := length (semaphores p) |} in
  let p' := {| semaphores := semaphores p ++ [n]; io := io p |} in
  id sem < length (semaphores p') ∧ _value p' sem = n.
Proof.
  simpl. unfold _value. simpl. rewrite length_app. simpl. split; [lia |].
  rewrite lookup_app_r by done. by rewrite Nat.sub_diag.
Qed.





(** Limits below one: the S3 backend cannot be built. *)
Example no_workers :
  build_storage (settings.S3Settings "images" "") 0 scenarios.process0
  = (Raise (ValueError "max_workers must be greater than 0"), scenarios.process0).
Proof. reflexivity. Qed.

End FactoryFacts.

(** ** [download_images] *)

Module OrchestratorFacts.

Import invariants scenarios.

Import asyncio download_images.

Lemma downloads_snoc (l : list event) (e : event) :
  downloads (l ++ [e])
  = downloads l ++ match e with Downloaded i => [i] | _ => [] end.
Proof. unfold downloads. rewrite omap_app. by destruct e. Qed.

Lemma uploads_snoc (l : list event) (e : event) :
  uploads (l ++ [e])
  = uploads l ++ match e with UploadStarted i => [i] | _ => [] end.
Proof. unfold uploads. rewrite omap_app. by destruct e. Qed.

Lemma uploaded_snoc (l : list event) (e : event) :
  uploaded (l ++ [e])
  = uploaded l ++ match e with UploadFinished i => [i] | _ => [] end.
Proof. unfold uploaded. rewrite omap_app. by destruct e. Qed.

Lemma elem_of_downloads (i : nat) (l : list event) :
  i ∈ downloads l ↔ Downloaded i ∈ l.
Proof.
  unfold downloads. rewrite list_elem_of_omap. split.
  - intros (e & He & Hi). destruct e; try done. by injection Hi as ->.
  - intros He. by exists (Downloaded i).
Qed.

Lemma upload_after_download_snoc (l : list event) (e : event) :
  upload_after_download l →
  (∀ i, e = UploadStarted i → Downloaded i ∈ l) →
  upload_after_download (l ++ [e]).
Proof.
  intros Hl He n i Hn.
  destruct (decide (n < length l)) as [Hlt | Hge].
  - rewrite lookup_app_l in Hn by done.
    destruct (Hl n i Hn) as (m & Hm & Hlook). exists m. split; [done |].
    rewrite lookup_app_l; [done | lia].
  - rewrite lookup_app_r in Hn by lia.
    destruct (n - length l) as [|k] eqn:Hk; [| by destruct k].
    injection Hn as ->.
    destruct (proj1 (list_elem_of_lookup _ _) (He i eq_refl)) as [m Hm].
    exists m. pose proof (lookup_lt_Some _ _ _ Hm).
    split; [lia |]. by rewrite lookup_app_l.
Qed.

Lemma finished_Done {A} (t : task A) (r : result A) :
  finished t = Some r → t = Done r.
Proof. destruct t; try done. by intros [= ->]. Qed.

Lemma inv_init `{abc.StorageBackend Src} (images : list string) (input : Src)
    (p : Process) :
  inv (init images input p).
Proof.
  split; simpl.
  - intros i Hi. by apply elem_of_nil in Hi.
  - constructor.
  - intros n i Hn. done.
  - unfold control. simpl. rewrite length_map. repeat split; lia.
Qed.

Lemma control_tasks (s : state) (i : nat) (t t' : task (string * bytes))
    (p' : Process) (c : list nat) :
  tasks s !! i = Some t → finished t = None →
  control {| proc := proc s; tasks := tasks s; completed := c;
             main := main s; log := log s |} →
  control {| proc := p'; tasks := <[i := t']> (tasks s); completed := c;
             main := main s; log := log s |}.
Proof.
  intros Hi Hfin. unfold control. simpl. rewrite length_insert.
  destruct (main s); try done.
  intros [(j & HD & HF & Hj) | Hup]; [left | by right].
  exists j. repeat split; try done.
  rewrite list_lookup_insert_ne; [done |].
  intros <-. rewrite Hi in Hj. injection Hj as ->. done.
Qed.

Lemma inv_step_task (i : nat) (s s' : state) :
  inv s → step_task i s = Some s' → inv s'.
Proof.
  intros [Hdone Hnodup Horder Hmain]. unfold step_task.
  destruct (tasks s !! i) as [t|] eqn:Hi; [| done].
  destruct (asyncio.step t (proc s)) as [[t' p']|] eqn:Ht; [| done].
  intros [= <-].
  assert (finished t = None) as Hfin.
  { destruct t; try done. }
  assert (i ∉ downloads (log s)) as Hfresh.
  { intros Hin. destruct (Hdone i Hin) as [r Hr].
    rewrite Hi in Hr. injection Hr as ->. done. }
  assert (∀ j, j ∈ downloads (log s) →
               ∃ r, <[i := t']> (tasks s) !! j = Some (Done r)) as Hdone'.
  { intros j Hj. destruct (Hdone j Hj) as [r Hr]. exists r.
    rewrite list_lookup_insert_ne; [done |]. by intros <-. }
  destruct (finished t') as [r|] eqn:Hfin'.
  - apply finished_Done in Hfin'. subst t'.
    rewrite bool_decide_eq_true_2 by eauto.
    split; simpl.
    + rewrite downloads_snoc. intros j Hj.
      apply elem_of_app in Hj as [Hj | Hj]; [auto |].
      apply list_elem_of_singleton in Hj as ->. exists r.
      apply list_lookup_insert_eq. by eapply lookup_lt_Some.
    + rewrite downloads_snoc. apply NoDup_app. repeat split; [done | | ].
      * intros j Hj Hj'. apply list_elem_of_singleton in Hj' as ->. done.
      * apply NoDup_singleton.
    + apply upload_after_download_snoc; [done |]. intros j. done.
    + pose proof (control_tasks s i t (Done r) p' (completed s) Hi Hfin) as Hc.
      unfold control in *. simpl in *.
      rewrite downloads_snoc, uploads_snoc, uploaded_snoc, !app_nil_r.
      rewrite length_insert in *.
      destruct (main s).
      * destruct Hmain as (HD & HF & Hn). rewrite HD, app_assoc. done.
      * destruct Hmain as (HD & HF & Hn). rewrite HD, app_assoc. done.
      * destruct Hmain as (HD & HF & Hn). rewrite HD, app_assoc. done.
      * destruct (Hc Hmain) as [(j & HD & HF & Hj) | (j & HD & HU)].
        -- left. exists j. rewrite HD at 1. rewrite <- app_assoc. done.
        -- right. exists j. rewrite HD at 1. rewrite <- app_assoc. done.
  - rewrite bool_decide_eq_false_2 by (by intros [? ?]).
    split; simpl; try done.
    apply (control_tasks s i t t' p' (completed s) Hi Hfin). by destruct s.
Qed.


Lemma inv_step_main `{abc.StorageBackend Dst} (output : Dst) (s s' : state) :
  inv s → step_main output s = Some s' → inv s'.
Proof.
  intros [Hdone Hnodup Horder Hmain]. unfold step_main.
  unfold control in Hmain.
  destruct (main s) as [[|n] | i t n | | e] eqn:Hm; try done.
  - intros [= <-]. destruct Hmain as (HD & HF & Hn).
    split; simpl; [done | done | done |]. unfold control. simpl. done.
  - destruct (completed s) as [|i queue] eqn:Hq; [done |].
    destruct Hmain as (HD & HF & Hn).
    destruct (tasks s !! i) as [[| | | |[[image result]|e]]|] eqn:Hi; try done;
      intros [= <-].
    + split; simpl.
      * by rewrite downloads_snoc, app_nil_r.
      * by rewrite downloads_snoc, app_nil_r.
      * apply upload_after_download_snoc; [done |]. intros j [= <-].
        apply elem_of_downloads. rewrite HD. set_solver.
      * unfold control. simpl.
        rewrite downloads_snoc, uploads_snoc, uploaded_snoc, !app_nil_r.
        rewrite length_app. simpl. rewrite HD, HF, <- app_assoc.
        repeat split; try done. lia.
    + split; simpl; [done | done | done |]. unfold control. simpl.
      left. by exists i.
  - destruct Hmain as (HD & HU & Hn).
    destruct t as [c | m | sem t | B t k | [[]|e]].
    1-4: destruct (asyncio.step _ (proc s)) as [[t' p']|]; [| done];
         intros [= <-]; (split; simpl; [done | done | done |]);
         unfold control; simpl; done.
    + intros [= <-]. split; simpl.
      * by rewrite downloads_snoc, app_nil_r.
      * by rewrite downloads_snoc, app_nil_r.
      * apply upload_after_download_snoc; [done |]. intros j. done.
      * unfold control. simpl.
        rewrite downloads_snoc, uploads_snoc, uploaded_snoc, !app_nil_r.
        done.
    + intros [= <-]. split; simpl; [done | done | done |].
      unfold control. simpl. right. by exists i.
Qed.

Lemma inv_run `{abc.StorageBackend Dst} (output : Dst) (schedule : list label) :
  ∀ s s', inv s → run output schedule s = Some s' → inv s'.
Proof.
  induction schedule as [|l schedule IH]; intros s s' Hinv; simpl.
  - by intros [= <-].
  - destruct (step output l s) as [s1|] eqn:Hstep; [| done].
    apply IH. destruct l as [i|]; simpl in Hstep.
    + by apply (inv_step_task i s).
    + by apply (inv_step_main output s).
Qed.

Lemma uploads_prefix (s : state) :
  control s → uploads (log s) `prefix_of` downloads (log s).
Proof.
  unfold control. destruct (main s).
  - intros (-> & _). by apply prefix_app_r.
  - intros (-> & _). by apply prefix_app_r.
  - intros (-> & _). by apply prefix_app_r.
  - intros [(i & -> & _) | (i & -> & _)]; by apply prefix_app_r.
Qed.



Lemma length_tasks_step `{abc.StorageBackend Dst} (output : Dst) (l : label)
    (s s' : state) :
  step output l s = Some s' → length (tasks s') = length (tasks s).
Proof.
  destruct l as [i|]; simpl.
  - unfold step_task. destruct (tasks s !! i) as [t|]; [| done].
    destruct (asyncio.step t (proc s)) as [[t' p']|]; [| done].
    intros [= <-]. simpl. apply length_insert.
  - unfold step_main.
    destruct (main s) as [[|n] | i t n | | e]; try done.
    + by intros [= <-].
    + destruct (completed s) as [|i queue]; [done |].
      destruct (tasks s !! i) as [[| | | |[[image result]|e]]|]; try done;
        by intros [= <-].
    + destruct t as [c | m | sem t | B t k | [[]|e]].
      1-4: destruct (asyncio.step _ (proc s)) as [[t' p']|]; [| done];
           by intros [= <-].
      all: by intros [= <-].
Qed.



(** C3.  In every state [download_images] reaches, for any images, any
    two backends and any schedule: each upload that was started comes
    after the end of the download of the same task, and the uploads were
    started in the order in which the downloads finished (the uploads are a
    prefix of the finished downloads).  That order need not be the order of
    [images]: with images [a, b] the upload of [b] can come first. *)
Theorem uploads_follow_completion :
  (∀ `{abc.StorageBackend Src} `{abc.StorageBackend Dst}
     (images : list string) (input : Src) (output : Dst) (p : Process)
     (schedule : list label) (s : state),
     run output schedule (init images input p) = Some s →
     (∀ n i, log s !! n = Some (UploadStarted i) →
             ∃ m, m < n ∧ log s !! m = Some (Downloaded i))
     ∧ uploads (log s) `prefix_of` downloads (log s))
  ∧ (run dst b_before_a (init ["a"; "b"] src disk_ab) = Some copied_b_then_a
     ∧ downloads (log copied_b_then_a) = [1; 0]
     ∧ uploads (log copied_b_then_a) = [1; 0]
     ∧ main copied_b_then_a = Returned).
Proof.
  split.
  - intros Src HSrc Dst HDst images input output p schedule s Hrun.
    pose proof (inv_run output schedule _ _ (inv_init images input p) Hrun)
      as [_ _ Horder Hmain].
    split; [exact Horder | by apply uploads_prefix].
  - split; [vm_compute; reflexivity |].
    split; [vm_compute; reflexivity |].
    split; vm_compute; reflexivity.
Qed.

Lemma uploads_follow_completion_witness :
  (∀ n i, log copied_b_then_a !! n = Some (UploadStarted i) →
          ∃ m, m < n ∧ log copied_b_then_a !! m = Some (Downloaded i))
  ∧ uploads (log copied_b_then_a) `prefix_of` downloads (log copied_b_then_a).
Proof.
  apply (proj1 uploads_follow_completion _ _ _ _ ["a"; "b"] src dst disk_ab
           b_before_a copied_b_then_a).
  vm_compute; reflexivity.
Defined.




End OrchestratorFacts.

(** ** Calls that go through a semaphore, run on their own *)

Module RunFacts.

Import invariants scenarios.

Import asyncio.

Lemma run_step {A} (t t' : task A) (p p' : Process) (fuel : nat) :
  step t p = Some (t', p') →
  run_until_complete (S fuel) t p = run_until_complete fuel t' p'.
Proof.
  intros Hstep. simpl. rewrite Hstep. destruct t; try done.
Qed.

Lemma run_Done {A} (r : result A) (p : Process) (fuel : nat) :
  run_until_complete fuel (Done r) p = (Some r, p).
Proof. by destruct fuel. Qed.






Lemma run_mono {A} (fuel n : nat) :
  ∀ (t : task A) (p p' : Process) (r : result A),
    run_until_complete fuel t p = (Some r, p') →
    run_until_complete (fuel + n) t p = (Some r, p').
Proof.
  induction fuel as [|fuel IH]; intros t p p' r; simpl.
  - destruct (finished t) as [r0|] eqn:Hfin; [| done].
    intros [= <- <-]. apply LoopFacts.finished_is_Done in Hfin as ->.
    apply run_Done.
  - destruct (finished t) as [r0|] eqn:Hfin; [done |].
    destruct (step t p) as [[t1 p1]|]; [| done]. apply IH.
Qed.

Lemma step_Holding {A} (sem : Semaphore) (t t1 : task A) (p p1 : Process) :
  step t p = Some (t1, p1) →
  step (Holding sem t) p = Some (Holding sem t1, p1).
Proof. intros Hstep. destruct t; try done; simpl in *; by rewrite Hstep. Qed.

Lemma step_Await {A B} (t t1 : task B) (k : B → coro A) (p p1 : Process) :
  step t p = Some (t1, p1) →
  step (Await t k) p = Some (Await t1 k, p1).
Proof. intros Hstep. destruct t; try done; simpl in *; by rewrite Hstep. Qed.

(** Inside [async with sem]: when the block finishes, the permit is given
    back and the outcome of the block is the outcome of the whole. *)
Lemma run_Holding {A} (sem : Semaphore) (fuel n : nat) :
  ∀ (t : task A) (p p1 : Process) (r : result A),
    run_until_complete fuel t p = (Some r, p1) →
    run_until_complete (S fuel + n) (Holding sem t) p
    = (Some r, set_value sem (_value p1 sem + 1) p1).
Proof.
  induction fuel as [|fuel IH]; intros t p p1 r Hrun.
  - simpl in Hrun. destruct (finished t) as [r0|] eqn:Hfin; [| done].
    injection Hrun as <- <-. apply LoopFacts.finished_is_Done in Hfin as ->.
    cbn [Nat.add]; erewrite run_step; [| reflexivity]. apply run_Done.
  - simpl in Hrun. destruct (finished t) as [r0|] eqn:Hfin.
    + injection Hrun as <- <-. apply LoopFacts.finished_is_Done in Hfin as ->.
      cbn [Nat.add]; erewrite run_step; [| reflexivity]. apply run_Done.
    + destruct (step t p) as [[t1 p1']|] eqn:Hstep; [| done].
      cbn [Nat.add]; erewrite run_step; [| by apply step_Holding]. by apply IH.
Qed.

(** [x = await t] followed by [k x]: an exception of [t] is the outcome,
    a value is passed to [k]. *)
Lemma run_Await_Raise {A B} (k : B → coro A) (fuel n : nat) :
  ∀ (t : task B) (p p1 : Process) (e : exn),
    run_until_complete fuel t p = (Some (Raise e), p1) →
    run_until_complete (S fuel + n) (Await t k) p = (Some (Raise e), p1).
Proof.
  induction fuel as [|fuel IH]; intros t p p1 e Hrun.
  - simpl in Hrun. destruct (finished t) as [r0|] eqn:Hfin; [| done].
    injection Hrun as -> <-. apply LoopFacts.finished_is_Done in Hfin as ->.
    cbn [Nat.add]; erewrite run_step; [| reflexivity]. apply run_Done.
  - simpl in Hrun. destruct (finished t) as [r0|] eqn:Hfin.
    + injection Hrun as -> <-. apply LoopFacts.finished_is_Done in Hfin as ->.
      cbn [Nat.add]; erewrite run_step; [| reflexivity]. apply run_Done.
    + destruct (step t p) as [[t1 p1']|] eqn:Hstep; [| done].
      cbn [Nat.add]; erewrite run_step; [| by apply step_Await]. by apply IH.
Qed.

Lemma run_Await_Return {A B} (k : B → coro A) (fuel fuel2 : nat) :
  ∀ (t : task B) (p p1 p2 : Process) (b : B) (r : result A),
    run_until_complete fuel t p = (Some (Return b), p1) →
    run_until_complete fuel2 (Start (k b)) p1 = (Some r, p2) →
    run_until_complete (S fuel + fuel2) (Await t k) p = (Some r, p2).
Proof.
  induction fuel as [|fuel IH]; intros t p p1 p2 b r Hrun Hk.
  - simpl in Hrun. destruct (finished t) as [r0|] eqn:Hfin; [| done].
    injection Hrun as -> <-. apply LoopFacts.finished_is_Done in Hfin as ->.
    cbn [Nat.add]; erewrite run_step; [| reflexivity]. exact Hk.
  - simpl in Hrun. destruct (finished t) as [r0|] eqn:Hfin.
    + injection Hrun as -> <-. apply LoopFacts.finished_is_Done in Hfin as ->.
      cbn [Nat.add]; erewrite run_step; [| reflexivity].
      match goal with
      | |- run_until_complete ?f _ _ = _ =>
          replace f with (fuel2 + (f - fuel2)) by lia
      end.
      by apply run_mono.
    + destruct (step t p) as [[t1 p1']|] eqn:Hstep; [| done].
      cbn [Nat.add]; erewrite run_step; [| by apply step_Await]. by eapply IH.
Qed.

End RunFacts.

(** ** [str] methods *)

Module StrFacts.

Lemma append_cons (a : ascii) (s t : string) :
  String a s +:+ t = String a (s +:+ t).
Proof. reflexivity. Qed.

Lemma append_nil_r (s : string) : s +:+ "" = s.
Proof.
  induction s as [|a s IH]; [done |]. by rewrite append_cons, IH.
Qed.

Lemma rev_app_spec (s : string) :
  ∀ acc, String.rev_app s acc = String.rev_app s "" +:+ acc.
Proof.
  induction s as [|a s IH]; intros acc; simpl; [done |].
  rewrite (IH (String a acc)), (IH (String a "")).
  by rewrite append_assoc.
Qed.

Lemma rev_append (s t : string) :
  String.rev (s +:+ t) = String.rev t +:+ String.rev s.
Proof.
  unfold String.rev. induction s as [|a s IH].
  - change ("" +:+ t) with t. simpl. by rewrite append_nil_r.
  - rewrite append_cons. simpl.
    rewrite (rev_app_spec (s +:+ t)), IH, (rev_app_spec s (String a "")).
    by rewrite append_assoc.
Qed.

Lemma rev_involutive (s : string) : String.rev (String.rev s) = s.
Proof.
  induction s as [|a s IH]; [done |].
  change (String a s) with (String a "" +:+ s) at 1.
  rewrite rev_append, rev_append, IH. reflexivity.
Qed.

Lemma lstrip_head (chars s : string) (a : ascii) (t : string) :
  str.lstrip chars s = String a t → str.mem a chars = false.
Proof.
  induction s as [|b s IH]; simpl; [done |].
  destruct (str.mem b chars) eqn:Hb; [done |]. by intros [= -> _].
Qed.

(** [rstrip] drops a trailing character of the set, ... *)
Lemma rstrip_snoc (chars s : string) (a : ascii) :
  str.mem a chars = true →
  str.rstrip chars (s +:+ String a "") = str.rstrip chars s.
Proof.
  intros Ha. unfold str.rstrip. rewrite rev_append.
  change (String.rev (String a "")) with (String a "").
  rewrite append_cons. simpl. by rewrite Ha.
Qed.

(** ... and what it returns does not end with one. *)
Lemma rstrip_last (chars s t : string) (a : ascii) :
  str.rstrip chars s = t +:+ String a "" → str.mem a chars = false.
Proof.
  unfold str.rstrip. intros Hs.
  apply (f_equal String.rev) in Hs. rewrite rev_involutive, rev_append in Hs.
  change (String.rev (String a "")) with (String a "") in Hs.
  rewrite append_cons in Hs. by apply lstrip_head in Hs.
Qed.

End StrFacts.

(** ** More on the HTTP backend *)

Module HTTPMore.

Import invariants scenarios.

Import asyncio.

(** A trailing slash of [base_url] makes no difference to the backend
    built, and the [base_url] a backend keeps never ends with a slash. *)
Theorem base_url_normalised (base_url : string) (headers : gmap string string)
    (n : Z) (p : Process) :
  HTTPStorage.__init__ (base_url +:+ "/") headers n p
  = HTTPStorage.__init__ base_url headers n p
  ∧ ∀ self p', HTTPStorage.__init__ base_url headers n p = (Return self, p') →
               ∀ t, HTTPStorage.base_url self ≠ t +:+ "/".
Proof.
  split.
  - unfold HTTPStorage.__init__. by rewrite StrFacts.rstrip_snoc.
  - intros self p'. unfold HTTPStorage.__init__, bind,
      ThreadPoolExecutor__init__, Semaphore__init__, ret, raise.
    destruct (n <=? 0)%Z; [done |]. destruct (n <? 0)%Z; [done |].
    intros [= <- _] t Ht. simpl in Ht.
    by apply StrFacts.rstrip_last in Ht.
Qed.

Lemma base_url_normalised_witness :
  HTTPStorage.__init__ ("http://host" +:+ "/") ∅ 1 process0
  = HTTPStorage.__init__ "http://host" ∅ 1 process0
  ∧ ∀ t, HTTPStorage.base_url http0 ≠ t +:+ "/".
Proof.
  destruct (base_url_normalised "http://host" ∅ 1 process0) as [Heq Hlast].
  split; [exact Heq |].
  apply (Hlast http0 process_http). vm_compute; reflexivity.
Defined.




End HTTPMore.

(** ** More on the local backend *)

Module LocalMore.

Import invariants scenarios.

Lemma grows_refl (fs : posix.FS) : tree.grows fs fs.
Proof. by split. Qed.

Lemma grows_trans (fs1 fs2 fs3 : posix.FS) :
  tree.grows fs1 fs2 → tree.grows fs2 fs3 → tree.grows fs1 fs3.
Proof. intros [H1 H1'] [H2 H2']. split; eauto. Qed.

Lemma grows_same_files (fs fs' : posix.FS) :
  tree.grows fs fs' → tree.same_files fs fs'.
Proof. intros [H1 H2] p data. split; eauto. Qed.

Lemma walk_grows (fs fs' : posix.FS) (cs cur c : list string) :
  tree.grows fs fs' →
  posix.walk fs cur cs = inr c → posix.walk fs' cur cs = inr c.
Proof.
  intros [Hext _]. revert cur. induction cs as [|x cs IH]; intros cur; simpl;
    [done |].
  destruct (posix.kind fs cur) as [[d|]|] eqn:Hcur; try done.
  rewrite (Hext _ _ Hcur). apply IH.
Qed.

Lemma kind_insert_dir (fs : posix.FS) (c : list string) :
  posix.kind fs c = None →
  posix.kind (<[c := posix.Dir]> fs) c = Some posix.Dir
  ∧ tree.grows fs (<[c := posix.Dir]> fs).
Proof.
  intros Hc. destruct c as [|x c]; [done |]. simpl in Hc.
  split; [simpl; by rewrite lookup_insert_eq |]. split.
  - intros p n Hp. destruct p as [|y p]; [done |]. simpl in *.
    rewrite lookup_insert_ne; [done |]. intros [= <- <-]. by rewrite Hc in Hp.
  - intros p data Hp. destruct p as [|y p]; [done |]. simpl in *.
    destruct (decide (x :: c = y :: p)) as [Heq | Hne].
    + injection Heq as <- <-. by rewrite lookup_insert_eq in Hp.
    + by rewrite lookup_insert_ne in Hp.
Qed.

(** [mkdir(2)]: on success the path is a directory and only it was added. *)
Lemma posix_mkdir_spec (path : list string) (fs fs' : posix.FS) :
  posix.mkdir path fs = inr fs' →
  posix.stat path fs' = inr posix.Dir ∧ tree.grows fs fs'.
Proof.
  unfold posix.mkdir, posix.stat, posix.namei.
  destruct (posix.walk fs [] path) as [e|c] eqn:Hwalk; [done |].
  destruct (posix.kind fs c) as [n|] eqn:Hc; [done |]. intros [= <-].
  destruct (kind_insert_dir fs c Hc) as [Hk Hg].
  by rewrite (walk_grows _ _ _ _ _ Hg Hwalk), Hk.
Qed.

Lemma mkdir_flat_spec (path : pathlib.Path) (exist_ok : bool)
    (fs fs' : posix.FS) (r : result unit) :
  pathlib.mkdir_flat path exist_ok fs = (r, fs') →
  tree.grows fs fs' ∧ (r = Return () → posix.stat path fs' = inr posix.Dir).
Proof.
  unfold pathlib.mkdir_flat, pathlib.is_dir.
  destruct (posix.mkdir path fs) as [e|fs1] eqn:Hmk.
  - destruct (posix.stat path fs) as [e'|[d|]] eqn:Hst;
      destruct e, exist_ok; intros [= <- <-]; (split; [apply grows_refl | done]).
  - intros [= <- <-]. destruct (posix_mkdir_spec _ _ _ Hmk). done.
Qed.

Lemma mkdir_parents_spec (rpath : list string) :
  ∀ (exist_ok : bool) (fs fs' : posix.FS) (r : result unit),
    pathlib.mkdir_parents rpath exist_ok fs = (r, fs') →
    tree.grows fs fs'
    ∧ (r = Return () → posix.stat (rev rpath) fs' = inr posix.Dir).
Proof.
  induction rpath as [|x rparent IH]; intros exist_ok fs fs' r;
    unfold pathlib.mkdir_parents; fold pathlib.mkdir_parents;
    unfold pathlib.is_dir.
  - destruct (posix.mkdir (rev []) fs) as [e|fs1] eqn:Hmk.
    + destruct (posix.stat (rev []) fs) as [e'|[d|]] eqn:Hst;
        destruct e, exist_ok; intros [= <- <-];
        (split; [apply grows_refl | done]).
    + intros [= <- <-]. destruct (posix_mkdir_spec _ _ _ Hmk). done.
  - destruct (posix.mkdir (rev (x :: rparent)) fs) as [e|fs1] eqn:Hmk.
    + destruct e.
      * unfold bind.
        destruct (pathlib.mkdir_parents rparent true fs) as [[[]|e1] fs1] eqn:Hp.
        -- intros Hflat. destruct (IH _ _ _ _ Hp) as [Hg1 _].
           destruct (mkdir_flat_spec _ _ _ _ _ Hflat) as [Hg2 Hst].
           split; [by eapply grows_trans | done].
        -- intros [= <- <-]. destruct (IH _ _ _ _ Hp) as [Hg1 _]. done.
      * destruct (posix.stat (rev (x :: rparent)) fs) as [e'|[d|]] eqn:Hst;
          destruct exist_ok; intros [= <- <-];
          (split; [apply grows_refl | done]).
      * destruct (posix.stat (rev (x :: rparent)) fs) as [e'|[d|]] eqn:Hst;
          destruct exist_ok; intros [= <- <-];
          (split; [apply grows_refl | done]).
      * destruct (posix.stat (rev (x :: rparent)) fs) as [e'|[d|]] eqn:Hst;
          destruct exist_ok; intros [= <- <-];
          (split; [apply grows_refl | done]).
    + intros [= <- <-]. destruct (posix_mkdir_spec _ _ _ Hmk). done.
Qed.

(** [path.mkdir(parents=True, exist_ok=True)] *)
Lemma mkdir_spec (path : pathlib.Path) (fs fs' : posix.FS) (r : result unit) :
  pathlib.mkdir path true true fs = (r, fs') →
  tree.grows fs fs' ∧ (r = Return () → posix.stat path fs' = inr posix.Dir).
Proof.
  unfold pathlib.mkdir. intros Hmk.
  destruct (mkdir_parents_spec _ _ _ _ _ Hmk) as [Hg Hst].
  by rewrite rev_involutive in Hst.
Qed.

(** On a path that is a directory already it returns and changes nothing. *)
Lemma mkdir_existing (path : pathlib.Path) (fs : posix.FS) :
  posix.stat path fs = inr posix.Dir →
  pathlib.mkdir path true true fs = (Return (), fs).
Proof.
  intros Hst. unfold pathlib.mkdir.
  assert (posix.mkdir path fs = inl posix.EEXIST) as Hmk.
  { unfold posix.mkdir. unfold posix.stat in Hst.
    destruct (posix.namei fs path) as [e|c]; [done |].
    by destruct (posix.kind fs c). }
  destruct (rev path) as [|x rparent] eqn:Hrev;
    unfold pathlib.mkdir_parents; fold pathlib.mkdir_parents;
    rewrite <- Hrev, rev_involutive, Hmk; unfold pathlib.is_dir;
    by rewrite Hst.
Qed.


Lemma set_fs_same (p : Process) : tree.set_fs (fs (io p)) p = p.
Proof. by destruct p as [? []]. Qed.

Lemma put_run (self : LocalStorage.t) (key : string) (file : BinaryIO)
    (fuel : nat) (p : Process) :
  let path := pathlib.truediv (LocalStorage.root self) key in
  let m := (pathlib.mkdir (pathlib.parent path) true true ;;;
            pathlib.write_bytes path (read file)) in
  asyncio.run_until_complete (S fuel)
    (asyncio.Start (LocalStorage.put self key file)) p
  = (Some (fst (m (fs (io p)))), tree.set_fs (snd (m (fs (io p)))) p).
Proof.
  intros path m. unfold LocalStorage.put. by rewrite run_sync, on_io_on_fs.
Qed.

Lemma stat_slurp (path : list string) (fs : posix.FS) :
  posix.slurp path fs
  = match posix.stat path fs with
    | inr (posix.File data) => inr data
    | inr posix.Dir => inl posix.EISDIR
    | inl e => inl e
    end.
Proof.
  unfold posix.slurp, posix.stat.
  destruct (posix.namei fs path) as [e|c]; [done |].
  by destruct (posix.kind fs c) as [[d|]|].
Qed.

Lemma get_run (self : LocalStorage.t) (key : string) (fuel : nat)
    (p : Process) :
  asyncio.run_until_complete (S fuel)
    (asyncio.Start (LocalStorage.get self key)) p
  = (Some match posix.stat (pathlib.truediv (LocalStorage.root self) key)
                 (fs (io p)) with
          | inr (posix.File data) => Return data
          | inr posix.Dir =>
              Raise (IsADirectoryError
                       (pathlib.as_posix
                          (pathlib.truediv (LocalStorage.root self) key)))
          | inl _ => Raise (FileNotFoundError key)
          end, p).
Proof.
  unfold LocalStorage.get. rewrite run_sync.
  erewrite on_io_frame; [reflexivity |]. apply on_fs_frame.
  set (path := pathlib.truediv (LocalStorage.root self) key).
  unfold bind, pathlib.exists_.
  destruct (posix.stat path (fs (io p))) as [e|n] eqn:Hst; simpl; [done |].
  unfold pathlib.read_bytes. rewrite stat_slurp, Hst. by destruct n.
Qed.


(** The constructor: when it returns, the root is a directory, no regular
    file was created, changed or removed, nothing else in the process
    moved, and constructing the backend once more changes nothing. *)
Theorem init_postcondition (root : pathlib.Path) (p p' : Process)
    (self : LocalStorage.t) :
  LocalStorage.__init__ root p = (Return self, p') →
  LocalStorage.root self = root
  ∧ posix.stat root (fs (io p')) = inr posix.Dir
  ∧ tree.same_files (fs (io p)) (fs (io p'))
  ∧ p' = tree.set_fs (fs (io p')) p
  ∧ LocalStorage.__init__ root p' = (Return self, p').
Proof.
  intros Hinit. unfold LocalStorage.__init__, bind in Hinit.
  rewrite on_io_on_fs in Hinit.
  destruct (pathlib.mkdir root true true (fs (io p))) as [[[]|e] fs'] eqn:Hmk;
    [| done].
  injection Hinit as <- <-.
  destruct (mkdir_spec _ _ _ _ Hmk) as [Hg Hst]. specialize (Hst eq_refl).
  split; [done |]. split; [exact Hst |].
  split; [by apply grows_same_files |]. split; [done |].
  unfold LocalStorage.__init__, bind. rewrite on_io_on_fs.
  cbn [fs io fst snd]. rewrite (mkdir_existing _ _ Hst). done.
Qed.

Lemma init_postcondition_witness :
  LocalStorage.__init__ tmp_x process0 = (Return local0, process1)
  ∧ posix.stat tmp_x (fs (io process1)) = inr posix.Dir
  ∧ LocalStorage.__init__ tmp_x process1 = (Return local0, process1).
Proof.
  assert (LocalStorage.__init__ tmp_x process0 = (Return local0, process1))
    as Hinit by (vm_compute; reflexivity).
  destruct (init_postcondition tmp_x process0 process1 local0 Hinit)
    as (_ & Hst & _ & _ & Hagain).
  split; [exact Hinit |]. split; [exact Hst | exact Hagain].
Defined.


Lemma creat_spec (path : list string) (data : bytes) (fs fs' : posix.FS) :
  posix.creat path data fs = inr fs' →
  ∃ c, posix.namei fs path = inr c ∧ posix.kind fs c ≠ Some posix.Dir
       ∧ fs' = <[c := posix.File data]> fs.
Proof.
  unfold posix.creat. destruct (posix.namei fs path) as [e|c]; [done |].
  destruct (posix.kind fs c) as [[d|]|] eqn:Hc; intros [= <-];
    exists c; by rewrite Hc.
Qed.

Lemma kind_insert_file_other (fs : posix.FS) (c c' : list string) (data : bytes) :
  c' ≠ c → posix.kind (<[c := posix.File data]> fs) c' = posix.kind fs c'.
Proof.
  intros Hne. destruct c' as [|x c']; [done |]. simpl.
  by rewrite lookup_insert_ne.
Qed.

(** What a successful write does to any path: the path written holds the
    new content, every other entry is as before. *)
Lemma creat_stat (path q : list string) (data : bytes) (fs fs' : posix.FS)
    (n : posix.node) :
  posix.creat path data fs = inr fs' →
  posix.stat path fs' = inr (posix.File data)
  ∧ (posix.stat q fs = inr n →
     posix.stat q fs' = inr n ∨ posix.stat q fs' = inr (posix.File data)).
Proof.
  intros Hcreat. destruct (creat_spec _ _ _ _ Hcreat) as (c & Hc & Hk & ->).
  unfold posix.stat, posix.namei in *. split.
  - rewrite (LocalFacts.walk_insert_file _ _ _ _ _ _ Hk Hc).
    by rewrite LocalFacts.kind_insert_file.
  - destruct (posix.walk fs [] q) as [e|c'] eqn:Hq; [done |].
    rewrite (LocalFacts.walk_insert_file _ _ _ _ _ _ Hk Hq).
    destruct (decide (c' = c)) as [-> | Hne].
    + intros _. right. by rewrite LocalFacts.kind_insert_file.
    + intros Hn. left. by rewrite kind_insert_file_other.
Qed.

Lemma creat_keeps_dir (path q : list string) (data : bytes) (fs fs' : posix.FS) :
  posix.creat path data fs = inr fs' →
  posix.stat q fs = inr posix.Dir → posix.stat q fs' = inr posix.Dir.
Proof.
  intros Hcreat. destruct (creat_spec _ _ _ _ Hcreat) as (c & Hc & Hk & ->).
  unfold posix.stat, posix.namei in *.
  destruct (posix.walk fs [] q) as [e|c'] eqn:Hq; [done |].
  rewrite (LocalFacts.walk_insert_file _ _ _ _ _ _ Hk Hq).
  destruct (posix.kind fs c') as [[d|]|] eqn:Hc'; try done. intros _.
  rewrite kind_insert_file_other; [by rewrite Hc' |].
  intros ->. by rewrite Hc' in Hk.
Qed.


(** The two halves of [put] on the directory tree. *)
Lemma put_fs (parent path : pathlib.Path) (data : bytes) (fs fs' : posix.FS)
    (r : result unit) :
  (pathlib.mkdir parent true true ;;; pathlib.write_bytes path data) fs
  = (r, fs') →
  ∃ fs1, tree.grows fs fs1
         ∧ ((r = Return () ∧ posix.stat parent fs1 = inr posix.Dir
             ∧ posix.creat path data fs1 = inr fs')
            ∨ ((∃ e, r = Raise e) ∧ fs' = fs1)).
Proof.
  unfold bind.
  destruct (pathlib.mkdir parent true true fs) as [[[]|e] fs1] eqn:Hmk.
  - destruct (mkdir_spec _ _ _ _ Hmk) as [Hg Hst]. intros Hw. exists fs1.
    split; [done |]. unfold pathlib.write_bytes in Hw.
    destruct (posix.creat path data fs1) as [e|fs2]; injection Hw as <- <-.
    + right. eauto.
    + left. auto.
  - intros [= <- <-]. destruct (mkdir_spec _ _ _ _ Hmk) as [Hg _].
    exists fs1. split; [done |]. right. eauto.
Qed.


Lemma put_done (self : LocalStorage.t) (key : string) (file : BinaryIO)
    (fuel : nat) (p p' : Process) (r : result unit) :
  asyncio.run_until_complete fuel
    (asyncio.Start (LocalStorage.put self key file)) p = (Some r, p') →
  ∃ fs', (pathlib.mkdir
            (pathlib.parent (pathlib.truediv (LocalStorage.root self) key))
            true true ;;;
          pathlib.write_bytes (pathlib.truediv (LocalStorage.root self) key)
            (read file)) (fs (io p)) = (r, fs')
         ∧ p' = tree.set_fs fs' p.
Proof.
  destruct fuel as [|fuel]; [done |]. rewrite put_run.
  set (m := (pathlib.mkdir _ true true ;;; pathlib.write_bytes _ _)).
  destruct (m (fs (io p))) as [r0 fs'] eqn:Hm. intros [= <- <-]. eauto.
Qed.




(** A [put] that raises has written no file: the regular files and their
    contents are what they were (directories made for the parents of the
    path may remain), and nothing outside the directory tree moved. *)
Theorem failed_put_writes_no_file (self : LocalStorage.t) (key : string)
    (file : BinaryIO) (fuel : nat) (e : exn) (p p' : Process) :
  asyncio.run_until_complete fuel
    (asyncio.Start (LocalStorage.put self key file)) p = (Some (Raise e), p') →
  tree.same_files (fs (io p)) (fs (io p'))
  ∧ p' = tree.set_fs (fs (io p')) p.
Proof.
  intros Hput. destruct (put_done _ _ _ _ _ _ _ Hput) as (fs' & Hm & ->).
  split; [| done]. cbn [tree.set_fs fs io]. apply grows_same_files.
  destruct (put_fs _ _ _ _ _ _ Hm) as (fs1 & Hg & [([=] & _) | (_ & ->)]).
  exact Hg.
Qed.

Lemma failed_put_writes_no_file_witness :
  asyncio.run_until_complete 1
    (asyncio.Start (LocalStorage.put local0 "d/.." (BytesIO payload))) process2
  = (Some (Raise (IsADirectoryError "/tmp/x/d/..")), process_failed_put)
  ∧ tree.same_files (fs (io process2)) (fs (io process_failed_put))
  ∧ posix.stat ["tmp"; "x"; "d"] (fs (io process_failed_put)) = inr posix.Dir.
Proof.
  assert (asyncio.run_until_complete 1
            (asyncio.Start (LocalStorage.put local0 "d/.." (BytesIO payload)))
            process2
          = (Some (Raise (IsADirectoryError "/tmp/x/d/..")), process_failed_put))
    as Hput by (vm_compute; reflexivity).
  split; [exact Hput |]. split; [| vm_compute; reflexivity].
  exact (proj1 (failed_put_writes_no_file local0 "d/.." _ 1 _ process2
                  process_failed_put Hput)).
Defined.

(** A key that was written can be written again: after a successful
    [put(key, file)], a second [put(key, file')] returns too, whatever
    [file'] is, and [get(key)] then returns the bytes of [file']. *)
Theorem put_overwrites (self : LocalStorage.t) (key : string)
    (file file' : BinaryIO) (fuel : nat) (p p1 : Process) :
  asyncio.run_until_complete fuel
    (asyncio.Start (LocalStorage.put self key file)) p = (Some (Return ()), p1) →
  ∃ p2, asyncio.run_until_complete 1
          (asyncio.Start (LocalStorage.put self key file')) p1
        = (Some (Return ()), p2)
        ∧ asyncio.run_until_complete 1
            (asyncio.Start (LocalStorage.get self key)) p2
          = (Some (Return (read file')), p2).
Proof.
  intros Hput. destruct (put_done _ _ _ _ _ _ _ Hput) as (fs2 & Hm & ->).
  destruct (put_fs _ _ _ _ _ _ Hm)
    as (fs1 & Hg & [(_ & Hparent & Hcreat) | ([e [=]] & _)]).
  pose proof (creat_keeps_dir _ _ _ _ _ Hcreat Hparent) as Hparent2.
  destruct (creat_stat _ [] _ _ _ posix.Dir Hcreat) as [Hfile _].
  assert (∃ fs3, posix.creat
                   (pathlib.truediv (LocalStorage.root self) key)
                   (read file') fs2 = inr fs3) as [fs3 Hcreat'].
  { unfold posix.creat. unfold posix.stat in Hfile.
    destruct (posix.namei fs2 _) as [e|c]; [done |].
    destruct (posix.kind fs2 c) as [[d|]|]; try done; eauto. }
  exists (tree.set_fs fs3 (tree.set_fs fs2 p)). rewrite put_run.
  cbn [tree.set_fs fs io]. unfold bind at 1 2.
  rewrite (mkdir_existing _ _ Hparent2). unfold pathlib.write_bytes.
  rewrite Hcreat'. cbn [fst snd]. split; [done |].
  rewrite get_run. cbn [tree.set_fs fs io].
  destruct (creat_stat _ [] _ _ _ posix.Dir Hcreat') as [-> _]. done.
Qed.

Lemma put_overwrites_witness :
  asyncio.run_until_complete 1
    (asyncio.Start (LocalStorage.put local0 "a/b.bin" (BytesIO payload)))
    process1 = (Some (Return ()), process2)
  ∧ ∃ p2, asyncio.run_until_complete 1
            (asyncio.Start (LocalStorage.put local0 "a/b.bin" (BytesIO [])))
            process2 = (Some (Return ()), p2)
          ∧ asyncio.run_until_complete 1
              (asyncio.Start (LocalStorage.get local0 "a/b.bin")) p2
            = (Some (Return (read (BytesIO []))), p2).
Proof.
  assert (asyncio.run_until_complete 1
            (asyncio.Start (LocalStorage.put local0 "a/b.bin" (BytesIO payload)))
            process1 = (Some (Return ()), process2)) as Hput
    by (vm_compute; reflexivity).
  split; [exact Hput |].
  exact (put_overwrites local0 "a/b.bin" _ (BytesIO []) 1 process1 process2 Hput).
Defined.

(** *** Paths without [".."] *)












End LocalMore.

(** ** More on the object store backends *)

Module ObjectStoreMore.

Import invariants scenarios.

Import asyncio.









End ObjectStoreMore.

(** ** More on semaphores, pools and constructors *)

Module PoolMore.

Import invariants scenarios.

Import asyncio.

(** Built with [max_concurrent = n ≥ 1], each of [S3Storage], [GCSStorage]
    and [HTTPStorage] never has more than [n] client calls in flight,
    however many [get] and [put] calls run on it and in whatever order the
    event loop moves them. *)
Theorem clients_bounded (n : Z) (p p' : Process) (requests : list request)
    (schedule : list nat) (s : loop.state) :
  (1 ≤ n)%Z →
  (∀ bucket prefix (self : S3Storage.t),
     S3Storage.__init__ bucket prefix n p = (Return self, p') →
     loop.run schedule
       {| loop.proc := p'; loop.tasks := map (call self) requests |} = Some s →
     (Z.of_nat (loop.jobs_in_flight s) ≤ n)%Z)
  ∧ (∀ bucket prefix (self : GCSStorage.t),
       GCSStorage.__init__ bucket prefix n p = (Return self, p') →
       loop.run schedule
         {| loop.proc := p'; loop.tasks := map (call self) requests |} = Some s →
       (Z.of_nat (loop.jobs_in_flight s) ≤ n)%Z)
  ∧ (∀ base_url headers (self : HTTPStorage.t),
       HTTPStorage.__init__ base_url headers n p = (Return self, p') →
       loop.run schedule
         {| loop.proc := p'; loop.tasks := map (call self) requests |} = Some s →
       (Z.of_nat (loop.jobs_in_flight s) ≤ n)%Z).
Proof.
  intros Hn. destruct (FactoryFacts.fresh_semaphore n p) as [Hlt Hval].
  split; [| split].
  - intros bucket prefix self. unfold S3Storage.__init__.
    rewrite FactoryFacts.pool_init by done. intros [= <- <-] Hrun.
    eapply (GuardFacts.guarded_bound (T:=S3Storage.t) _ _ n);
      [exact Hlt | exact Hval | lia | | exact Hrun].
    intros [key | key file]; simpl; by left.
  - intros bucket prefix self. unfold GCSStorage.__init__.
    rewrite FactoryFacts.pool_init by done. intros [= <- <-] Hrun.
    eapply (GuardFacts.guarded_bound (T:=GCSStorage.t) _ _ n);
      [exact Hlt | exact Hval | lia | | exact Hrun].
    intros [key | key file]; simpl; by left.
  - intros base_url headers self. unfold HTTPStorage.__init__.
    rewrite FactoryFacts.pool_init by done. intros [= <- <-] Hrun.
    eapply (GuardFacts.guarded_bound (T:=HTTPStorage.t) _ _ n);
      [exact Hlt | exact Hval | lia | | exact Hrun].
    intros [key | key file]; simpl; [| done]. split; [by left | done].
Qed.

Lemma clients_bounded_witness :
  (Z.of_nat (loop.jobs_in_flight s3_two_in_flight) ≤ 2)%Z
  ∧ loop.jobs_in_flight s3_two_in_flight = 2
  ∧ loop.step 1 s3_two_in_flight = None.
Proof.
  split; [| split; vm_compute; reflexivity].
  apply (proj1 (clients_bounded 2 process0 process_s3 three_calls [0; 0; 2; 2]
                  s3_two_in_flight ltac:(lia)) "/images/" "/raw/" s3_0).
  - vm_compute; reflexivity.
  - vm_compute; reflexivity.
Defined.



(** A caller of [PooledStorage] that finds no permit free cannot move, so
    the wrapped backend is not called; and behind a pool built with zero
    permits no call ever moves at all. *)
Theorem no_permit_no_call `{abc.StorageBackend T} (self : PooledStorage.t T) :
  (∀ (r : request) (p : Process),
     (_value p (PooledStorage.semaphore self) ≤ 0)%Z →
     match call self r with
     | loop.task_of t => step t p = None
     end)
  ∧ (∀ (backend : T) (p p' : Process) (requests : list request)
       (schedule : list nat) (s : loop.state),
       PooledStorage.__init__ backend 0 p = (Return self, p') →
       loop.run schedule
         {| loop.proc := p'; loop.tasks := map (call self) requests |} = Some s →
       schedule = []).
Proof.
  assert (∀ (r : request) (p : Process),
            (_value p (PooledStorage.semaphore self) ≤ 0)%Z →
            match call self r with
            | loop.task_of t => step t p = None
            end) as Hblocked.
  { intros [key | key file] p Hv; simpl;
      by rewrite (proj2 (Z.ltb_ge _ _) Hv). }
  split; [exact Hblocked |].
  intros backend p p' requests schedule s Hinit Hrun.
  destruct (PooledFacts.init_semaphore _ _ _ _ _ Hinit) as (_ & _ & Hval).
  destruct schedule as [|i schedule]; [done |]. simpl in Hrun.
  unfold loop.step in Hrun. simpl in Hrun. rewrite list_lookup_fmap in Hrun.
  destruct (requests !! i) as [r|]; [| done]. simpl in Hrun.
  specialize (Hblocked r p' ltac:(lia)).
  destruct (call self r) as [A t]. by rewrite Hblocked in Hrun.
Qed.

Lemma no_permit_no_call_witness :
  PooledStorage.__init__ http0 0 process_http
  = (Return pool_closed, process_closed)
  ∧ step (Start (PooledStorage.get pool_closed "a")) process_closed = None
  ∧ loop.run [0]
      {| loop.proc := process_closed;
         loop.tasks := map (call pool_closed) three_calls |} = None.
Proof.
  assert (PooledStorage.__init__ http0 0 process_http
          = (Return pool_closed, process_closed)) as Hinit
    by (vm_compute; reflexivity).
  destruct (no_permit_no_call pool_closed) as [Hblocked Hnone].
  split; [exact Hinit |]. split.
  - apply (Hblocked (Get "a") process_closed). vm_compute. discriminate.
  - destruct (loop.run [0]
                {| loop.proc := process_closed;
                   loop.tasks := map (call pool_closed) three_calls |})
      as [s|] eqn:Hrun; [| reflexivity].
    discriminate (Hnone http0 process_http process_closed three_calls [0] s
                    Hinit Hrun).
Defined.

Lemma all_over_hold_nothing (sem : Semaphore) (s : loop.state) :
  Forall tasks.over (loop.tasks s) → loop.permits_held sem s = 0.
Proof.
  unfold loop.permits_held.
  induction 1 as [|[A t] l [r Hr] _ IH]; simpl; [done |].
  rewrite IH. apply LoopFacts.finished_is_Done in Hr as ->. done.
Qed.

(** The permits of a pool are conserved: in every state the event loop
    reaches, the permits free and the permits held by callers add up to the
    limit, and once every call is over all of them are free again,
    whatever the calls returned or raised. *)
Theorem permits_conserved `{abc.StorageBackend T} (backend : T) (N : Z)
    (p p' : Process) (self : PooledStorage.t T) (requests : list request)
    (schedule : list nat) (s : loop.state) :
  PooledStorage.__init__ backend N p = (Return self, p') →
  loop.run schedule
    {| loop.proc := p'; loop.tasks := map (call self) requests |} = Some s →
  let sem := PooledStorage.semaphore self in
  (_value (loop.proc s) sem + Z.of_nat (loop.permits_held sem s) = N)%Z
  ∧ (0 ≤ _value (loop.proc s) sem)%Z
  ∧ (Forall tasks.over (loop.tasks s) → _value (loop.proc s) sem = N).
Proof.
  intros Hinit Hrun sem.
  destruct (PooledFacts.init_semaphore _ _ _ _ _ Hinit) as (HN & Hlt & Hval).
  destruct (LoopFacts.schedule_conserves sem schedule
              {| loop.proc := p'; loop.tasks := map (call self) requests |}
              s Hlt Hrun) as (Hsum & Hpos).
  simpl in Hsum, Hpos. fold sem in Hval.
  rewrite LoopFacts.calls_hold_nothing, Hval in Hsum. rewrite Hval in Hpos.
  split; [lia |]. split; [auto |].
  intros Hover. rewrite (all_over_hold_nothing sem s Hover) in Hsum. lia.
Qed.

Lemma permits_conserved_witness :
  (_value (loop.proc after_three_moves) (PooledStorage.semaphore pool0)
   + Z.of_nat (loop.permits_held (PooledStorage.semaphore pool0)
                 after_three_moves) = 2)%Z
  ∧ _value (loop.proc after_three_moves) (PooledStorage.semaphore pool0) = 0%Z.
Proof.
  split; [| vm_compute; reflexivity].
  apply (permits_conserved http0 2 process_http process_pool pool0 three_calls
           [0; 2; 0] after_three_moves).
  - vm_compute; reflexivity.
  - vm_compute; reflexivity.
Defined.

(** The wrapper changes no result: with a permit free, a call through
    [PooledStorage] returns or raises what the wrapped call does once the
    permit is taken, leaves the world as the wrapped call leaves it, and
    gives the permit back. *)
Theorem pool_is_transparent `{abc.StorageBackend T} (self : PooledStorage.t T)
    (key : string) (file : BinaryIO) (fuel : nat) (p : Process) :
  let sem := PooledStorage.semaphore self in
  let entered := set_value sem (_value p sem - 1) p in
  (0 < _value p sem)%Z →
  (∀ r p1,
     run_until_complete fuel (Start (abc.get (PooledStorage.backend self) key))
       entered = (Some r, p1) →
     run_until_complete (2 + fuel) (Start (PooledStorage.get self key)) p
     = (Some r, set_value sem (_value p1 sem + 1) p1))
  ∧ (∀ r p1,
       run_until_complete fuel
         (Start (abc.put (PooledStorage.backend self) key file)) entered
       = (Some r, p1) →
       run_until_complete (2 + fuel) (Start (PooledStorage.put self key file)) p
       = (Some r, set_value sem (_value p1 sem + 1) p1)).
Proof.
  intros sem entered Hpos. apply Z.ltb_lt in Hpos.
  split; intros r p1 Hrun; replace (2 + fuel) with (S (S fuel + 0)) by lia;
    (erewrite RunFacts.run_step; [| simpl; fold sem; by rewrite Hpos]);
    by apply RunFacts.run_Holding.
Qed.

Lemma pool_is_transparent_witness :
  run_until_complete 3 (Start (PooledStorage.put pool0 "b" (BytesIO [])))
    process_pool
  = (Some (Raise (RuntimeError "HTTP backend is read-only")), after_failed_put).
Proof.
  assert (0 < _value process_pool (PooledStorage.semaphore pool0))%Z as Hpos
    by (vm_compute; reflexivity).
  assert (run_until_complete 1
            (Start (abc.put (PooledStorage.backend pool0) "b" (BytesIO [])))
            (set_value (PooledStorage.semaphore pool0)
               (_value process_pool (PooledStorage.semaphore pool0) - 1)
               process_pool)
          = (Some (Raise (RuntimeError "HTTP backend is read-only")),
             set_value (PooledStorage.semaphore pool0) 1 process_pool)) as Hin
    by (vm_compute; reflexivity).
  etransitivity;
    [exact (proj2 (pool_is_transparent (H:=HTTPStorage.backend) pool0 "b"
                     (BytesIO []) 1 process_pool Hpos) _ _ Hin) |].
  vm_compute; reflexivity.
Defined.

End PoolMore.

(** ** More on [build_storage] *)

Module FactoryMore.

Import invariants scenarios.

Import asyncio.






Lemma pool_init_cases {X} (f : ThreadPoolExecutor → Semaphore → X) (n : Z)
    (p : Process) :
  (executor <- ThreadPoolExecutor__init__ n ;;
   semaphore <- Semaphore__init__ n ;;
   ret (f executor semaphore)) p
  = if (n <=? 0)%Z
    then (Raise (ValueError "max_workers must be greater than 0"), p)
    else (Return (f {| _max_workers := n |} {| id := length (semaphores p) |}),
          {| semaphores := semaphores p ++ [n]; io := io p |}).
Proof.
  destruct (n <=? 0)%Z eqn:Hn.
  - unfold bind, ThreadPoolExecutor__init__, raise. by rewrite Hn.
  - apply FactoryFacts.pool_init. apply Z.leb_gt in Hn. lia.
Qed.

Lemma local_init_cases (root : pathlib.Path) (p : Process) :
  LocalStorage.__init__ root p
  = (match fst (pathlib.mkdir root true true (fs (io p))) with
     | Return _ => Return {| LocalStorage.root := root |}
     | Raise e => Raise e
     end,
     tree.set_fs (snd (pathlib.mkdir root true true (fs (io p)))) p).
Proof.
  unfold LocalStorage.__init__, bind. rewrite on_io_on_fs.
  by destruct (pathlib.mkdir root true true (fs (io p))) as [[[]|e] fs'].
Qed.

Lemma build_local (root_dir : pathlib.Path) (N : Z) (p : Process) :
  build_storage (settings.LocalSettings root_dir) N p
  = (self <- LocalStorage.__init__ root_dir ;; ret (Local self)) p.
Proof. reflexivity. Qed.

Lemma build_http (base_url : string) (headers : gmap string string) (N : Z)
    (p : Process) :
  build_storage (settings.HTTPSettings base_url headers) N p
  = (self <- HTTPStorage.__init__ base_url headers default_max_concurrent ;;
     ret (HTTP self)) p.
Proof. reflexivity. Qed.

Lemma build_s3 (bucket prefix : string) (N : Z) (p : Process) :
  build_storage (settings.S3Settings bucket prefix) N p
  = (self <- S3Storage.__init__ bucket prefix N ;; ret (S3 self)) p.
Proof. reflexivity. Qed.

Lemma build_gcs (bucket prefix : string) (N : Z) (p : Process) :
  build_storage (settings.GCSSettings bucket prefix) N p
  = (self <- GCSStorage.__init__ bucket prefix default_max_concurrent ;;
     ret (GCS self)) p.
Proof. reflexivity. Qed.




Lemma same_files_refl (fs : posix.FS) : tree.same_files fs fs.
Proof. by intros q data. Qed.

(** The side effects of [build_storage] on a validated settings object.
    Whatever it returns or raises, no regular file is created, changed or
    removed and nothing of the world but the directory tree moves.  A local
    backend is returned with its root made a directory and no semaphore
    allocated; an HTTP, S3 or GCS backend is returned with the world
    untouched and exactly one semaphore allocated; a failure allocates
    none. *)
Theorem build_storage_effects (storage : settings.Settings) (N : Z)
    (p p' : Process) (r : result Storage) :
  settings.model storage →
  build_storage storage N p = (r, p') →
  tree.same_files (fs (io p)) (fs (io p'))
  ∧ io p' = io (tree.set_fs (fs (io p')) p)
  ∧ match r with
    | Return (Local self) =>
        semaphores p' = semaphores p
        ∧ posix.stat (LocalStorage.root self) (fs (io p')) = inr posix.Dir
    | Return _ => io p' = io p ∧ length (semaphores p') = S (length (semaphores p))
    | Raise _ => semaphores p' = semaphores p
    end.
Proof.
  intros [root_dir | base_url headers | bucket prefix | bucket prefix].
  - rewrite build_local. unfold bind. rewrite local_init_cases.
    destruct (pathlib.mkdir root_dir true true (fs (io p))) as [[[]|e] fs'] eqn:Hmk;
      simpl; intros [= <- <-]; simpl;
      destruct (LocalMore.mkdir_spec _ _ _ _ Hmk) as [Hg Hst];
      (split; [by apply LocalMore.grows_same_files |]); auto.
  - rewrite build_http. unfold bind at 1. unfold HTTPStorage.__init__.
    rewrite pool_init_cases. simpl. intros [= <- <-]. simpl.
    rewrite length_app. simpl.
    split; [apply same_files_refl |]. split; [by destruct (io p) |].
    split; [done | lia].
  - rewrite build_s3. unfold bind at 1. unfold S3Storage.__init__.
    rewrite pool_init_cases.
    destruct (N <=? 0)%Z; simpl; intros [= <- <-]; simpl;
      (split; [apply same_files_refl |]); (split; [by destruct (io p) |]);
      [done |]. rewrite length_app. simpl. split; [done | lia].
  - rewrite build_gcs. unfold bind at 1. unfold GCSStorage.__init__.
    rewrite pool_init_cases. simpl. intros [= <- <-]. simpl.
    rewrite length_app. simpl.
    split; [apply same_files_refl |]. split; [by destruct (io p) |].
    split; [done | lia].
Qed.

Lemma build_storage_effects_witness :
  build_storage (settings.LocalSettings tmp_x) 8 process0
  = (Return (Local local0), process1)
  ∧ tree.same_files (fs (io process0)) (fs (io process1))
  ∧ semaphores process1 = semaphores process0
  ∧ posix.stat (LocalStorage.root local0) (fs (io process1)) = inr posix.Dir.
Proof.
  assert (build_storage (settings.LocalSettings tmp_x) 8 process0
          = (Return (Local local0), process1)) as Hbuild
    by (vm_compute; reflexivity).
  destruct (build_storage_effects _ 8 process0 process1 _
              (settings.model_local tmp_x) Hbuild) as (Hfiles & _ & Hsem & Hst).
  split; [exact Hbuild |]. split; [exact Hfiles |]. split; [exact Hsem | exact Hst].
Defined.

End FactoryMore.

(** ** More on [tagged] and [download_images] *)

Module BatchMore.

Import invariants scenarios.

Import asyncio download_images.

(** [tagged(key, coro)] returns the result of [coro] paired with [key],
    raises what [coro] raises, and does to the process what [coro]
    does. *)
Theorem tagged_outcome {A} (key : string) (c : coro A) (fuel : nat)
    (p p1 : Process) (r : result A) :
  run_until_complete fuel (Start c) p = (Some r, p1) →
  run_until_complete (3 + fuel) (Start (tagged key c)) p
  = (Some match r with
          | Return a => Return (key, a)
          | Raise e => Raise e
          end, p1).
Proof.
  intros Hrun. unfold tagged. replace (3 + fuel) with (S (S fuel + 1)) by lia.
  erewrite RunFacts.run_step; [| reflexivity].
  destruct r as [a|e].
  - eapply RunFacts.run_Await_Return; [exact Hrun |].
    change 1 with (S 0). rewrite run_sync.
    by rewrite (on_io_frame _ p1 (Return (key, a))).
  - by apply RunFacts.run_Await_Raise.
Qed.

Lemma tagged_outcome_witness :
  run_until_complete 1 (Start (LocalStorage.get src "a")) disk_b
  = (Some (Raise (FileNotFoundError "a")), disk_b)
  ∧ run_until_complete 4 (Start (tagged "a" (LocalStorage.get src "a"))) disk_b
    = (Some (Raise (FileNotFoundError "a")), disk_b).
Proof.
  assert (run_until_complete 1 (Start (LocalStorage.get src "a")) disk_b
          = (Some (Raise (FileNotFoundError "a")), disk_b)) as Hrun
    by (vm_compute; reflexivity).
  split; [exact Hrun |].
  exact (tagged_outcome "a" (LocalStorage.get src "a") 1 disk_b disk_b _ Hrun).
Defined.

Lemma tagged_step (key : string) (t t' : task (string * bytes))
    (p p' : Process) :
  batch.tagged_with key t → asyncio.step t p = Some (t', p') →
  batch.tagged_with key t'.
Proof.
  intros [[c ->] | [[t0 ->] | [[r ->] | [[r ->] | [e ->]]]]] Hstep.
  - injection Hstep as <- <-. right; left. eauto.
  - destruct (finished t0) as [r0|] eqn:Hfin.
    + apply LoopFacts.finished_is_Done in Hfin as ->. simpl in Hstep.
      destruct r0 as [b|e]; injection Hstep as <- <-.
      * right; right; left. eauto.
      * right; right; right; right. eauto.
    + assert (asyncio.step (Await t0 (λ r : bytes, Sync (ret (key, r)))) p
              = match asyncio.step t0 p with
                | Some (t1, p1) =>
                    Some (Await t1 (λ r : bytes, Sync (ret (key, r))), p1)
                | None => None
                end) as Heq by (by destruct t0).
      rewrite Heq in Hstep.
      destruct (asyncio.step t0 p) as [[t1 p1]|]; [| done].
      injection Hstep as <- <-. right; left. eauto.
  - rewrite step_sync in Hstep. injection Hstep as <- <-.
    right; right; right; left. exists r. reflexivity.
  - done.
  - done.
Qed.

Lemma tags_init `{abc.StorageBackend Src} (images : list string) (input : Src)
    (p : Process) :
  batch.tags_kept images (init images input p).
Proof.
  split; simpl; [by rewrite length_map |].
  intros i key t Hi. rewrite list_lookup_fmap, Hi. intros [= <-].
  left. eauto.
Qed.

Lemma tags_step `{abc.StorageBackend Dst} (output : Dst) (images : list string)
    (l : label) (s s' : state) :
  batch.tags_kept images s → step output l s = Some s' →
  batch.tags_kept images s'.
Proof.
  intros [Hlen Htags] Hstep.
  split; [by rewrite (OrchestratorFacts.length_tasks_step output l s s' Hstep) |].
  destruct l as [i|]; simpl in Hstep.
  - unfold step_task in Hstep.
    destruct (tasks s !! i) as [t|] eqn:Hi; [| done].
    destruct (asyncio.step t (proc s)) as [[t' p']|] eqn:Ht; [| done].
    injection Hstep as <-. simpl. intros j key tj Hj Htj.
    destruct (decide (i = j)) as [-> | Hne].
    + rewrite list_lookup_insert_eq in Htj by (by eapply lookup_lt_Some).
      injection Htj as <-. eapply tagged_step; [| exact Ht]. eauto.
    + rewrite list_lookup_insert_ne in Htj by done. eauto.
  - assert (tasks s' = tasks s) as ->; [| done].
    unfold step_main in Hstep.
    destruct (main s) as [[|n] | i t n | | e]; try done.
    + by injection Hstep as <-.
    + destruct (completed s) as [|i queue]; [done |].
      destruct (tasks s !! i) as [[| | | |[[image result]|e]]|]; try done;
        by injection Hstep as <-.
    + destruct t as [c | m | sem t | B t k | [[]|e]].
      1-4: destruct (asyncio.step _ (proc s)) as [[t' p']|]; [| done];
           by injection Hstep as <-.
      all: by injection Hstep as <-.
Qed.


Lemma tags_run `{abc.StorageBackend Dst} (output : Dst) (images : list string)
    (schedule : list label) :
  ∀ s s', batch.tags_kept images s → run output schedule s = Some s' →
          batch.tags_kept images s'.
Proof.
  induction schedule as [|l schedule IH]; intros s s' Htags; simpl.
  - by intros [= <-].
  - destruct (step output l s) as [s1|] eqn:Hstep; [| done].
    apply IH. by apply (tags_step output images l s).
Qed.

(** Results keep their key: in every state [download_images] reaches,
    whatever the backends, the schedule and the order in which downloads
    finish, the result of task [i] is paired with the [i]-th image, so an
    upload is never made under the key of another download. *)
Theorem results_keep_their_key `{abc.StorageBackend Src}
    `{abc.StorageBackend Dst} (images : list string) (input : Src)
    (output : Dst) (p : Process) (schedule : list label) (s : state)
    (i : nat) (key : string) (data : bytes) :
  run output schedule (init images input p) = Some s →
  tasks s !! i = Some (Done (Return (key, data))) →
  images !! i = Some key.
Proof.
  intros Hrun Hi.
  destruct (tags_run output images schedule _ _ (tags_init images input p) Hrun)
    as [Hlen Htags].
  destruct (images !! i) as [key'|] eqn:Hkey.
  - destruct (Htags i key' _ Hkey Hi)
      as [[c [=]] | [[t0 [=]] | [[r [=]] | [[r [= -> _]] | [e [=]]]]]].
    done.
  - apply lookup_ge_None in Hkey. apply lookup_lt_Some in Hi. lia.
Qed.

Lemma results_keep_their_key_witness :
  run dst a_fails (init ["a"; "b"] src disk_b) = Some stopped_at_a
  ∧ tasks stopped_at_a !! 1 = Some (Done (Return ("b", payload)))
  ∧ ["a"; "b"] !! 1 = Some "b".
Proof.
  assert (run dst a_fails (init ["a"; "b"] src disk_b) = Some stopped_at_a)
    as Hrun by (vm_compute; reflexivity).
  assert (tasks stopped_at_a !! 1 = Some (Done (Return ("b", payload))))
    as Hi by (vm_compute; reflexivity).
  split; [exact Hrun |]. split; [exact Hi |].
  exact (results_keep_their_key ["a"; "b"] src dst disk_b a_fails stopped_at_a
           1 "b" payload Hrun Hi).
Defined.

(** The empty batch: [download_images([], ...)] can only return, at its
    first move; no task exists, nothing is downloaded or uploaded and the
    process is untouched. *)
Theorem empty_batch `{abc.StorageBackend Src} `{abc.StorageBackend Dst}
    (input : Src) (output : Dst) (p : Process) (schedule : list label)
    (s : state) :
  run output schedule (init [] input p) = Some s →
  (schedule = [] ∧ main s = AsCompleted 0 ∨ schedule = [Main] ∧ main s = Returned)
  ∧ proc s = p ∧ tasks s = [] ∧ log s = [].
Proof.
  destruct schedule as [|[i|] schedule]; simpl.
  - intros [= <-]. split; [by left | done].
  - unfold step_task. simpl. done.
  - destruct schedule as [|[i|] schedule]; simpl.
    + intros [= <-]. split; [by right | done].
    + unfold step_task. simpl. done.
    + done.
Qed.

Lemma empty_batch_witness :
  run dst [Main] (init [] src disk_b)
  = Some {| proc := disk_b; tasks := []; completed := []; main := Returned;
            log := [] |}
  ∧ proc {| proc := disk_b; tasks := []; completed := []; main := Returned;
            log := [] |} = disk_b.
Proof.
  assert (run dst [Main] (init [] src disk_b)
          = Some {| proc := disk_b; tasks := []; completed := [];
                    main := Returned; log := [] |}) as Hrun by reflexivity.
  split; [exact Hrun |].
  exact (proj1 (proj2 (empty_batch src dst disk_b [Main] _ Hrun))).
Defined.

Lemma logged_init `{abc.StorageBackend Src} (images : list string) (input : Src)
    (p : Process) :
  batch.logged (init images input p).
Proof.
  intros i r. simpl. rewrite list_lookup_fmap.
  by destruct (images !! i).
Qed.

Lemma downloads_mono (l : list event) (e : event) (i : nat) :
  i ∈ downloads l → i ∈ downloads (l ++ [e]).
Proof.
  intros Hi. rewrite OrchestratorFacts.downloads_snoc.
  apply elem_of_app. by left.
Qed.

Lemma logged_step `{abc.StorageBackend Dst} (output : Dst) (l : label)
    (s s' : state) :
  batch.logged s → step output l s = Some s' → batch.logged s'.
Proof.
  intros Hlog Hstep. destruct l as [i|]; simpl in Hstep.
  - unfold step_task in Hstep.
    destruct (tasks s !! i) as [t|] eqn:Hi; [| done].
    destruct (asyncio.step t (proc s)) as [[t' p']|] eqn:Ht; [| done].
    injection Hstep as <-. intros j r. simpl.
    destruct (decide (i = j)) as [<- | Hne].
    + rewrite list_lookup_insert_eq by (by eapply lookup_lt_Some).
      intros [= ->]. rewrite bool_decide_eq_true_2 by (simpl; eauto).
      rewrite OrchestratorFacts.downloads_snoc. apply elem_of_app. right.
      by apply list_elem_of_singleton.
    + rewrite list_lookup_insert_ne by done. intros Hj.
      specialize (Hlog j r Hj). case_bool_decide; [| done].
      by apply downloads_mono.
  - unfold step_main in Hstep.
    destruct (main s) as [[|n] | i t n | | e]; try done.
    + by injection Hstep as <-.
    + destruct (completed s) as [|i queue]; [done |].
      destruct (tasks s !! i) as [[| | | |[[image result]|e]]|]; try done;
        injection Hstep as <-; intros j r Hj; simpl in *;
        [apply downloads_mono |]; by apply (Hlog j r).
    + destruct t as [c | m | sem t | B t k | [[]|e]].
      1-4: destruct (asyncio.step _ (proc s)) as [[t' p']|]; [| done];
           injection Hstep as <-; intros j r Hj; by apply (Hlog j r).
      * injection Hstep as <-. intros j r Hj. simpl in *.
        apply downloads_mono. by apply (Hlog j r).
      * injection Hstep as <-. intros j r Hj. by apply (Hlog j r).
Qed.

Lemma logged_run `{abc.StorageBackend Dst} (output : Dst)
    (schedule : list label) :
  ∀ s s', batch.logged s → run output schedule s = Some s' → batch.logged s'.
Proof.
  induction schedule as [|l schedule IH]; intros s s' Hlog; simpl.
  - by intros [= <-].
  - destruct (step output l s) as [s1|] eqn:Hstep; [| done].
    apply IH. by apply (logged_step output l s).
Qed.

(** No hanging on a finished batch: in every state [download_images]
    reaches, if every download task is over and the loop is at
    [await fut], the loop can move: the queue of [as_completed] holds a
    result for it. *)
Theorem loop_never_starves `{abc.StorageBackend Src} `{abc.StorageBackend Dst}
    (images : list string) (input : Src) (output : Dst) (p : Process)
    (schedule : list label) (s : state) (n : nat) :
  run output schedule (init images input p) = Some s →
  main s = AsCompleted n →
  (∀ i t, tasks s !! i = Some t → is_Some (finished t)) →
  is_Some (step output Main s).
Proof.
  intros Hrun Hm Hover.
  pose proof (OrchestratorFacts.inv_run output schedule _ _
                (OrchestratorFacts.inv_init images input p) Hrun)
    as [Hdone Hnodup _ Hmain].
  pose proof (logged_run output schedule _ _ (logged_init images input p) Hrun)
    as Hlog.
  simpl. unfold step_main. unfold control in Hmain. rewrite Hm in *.
  destruct n as [|n]; [eauto |].
  destruct Hmain as (HD & HF & Hn).
  assert (length (tasks s) ≤ length (downloads (log s)))%nat as Hlen.
  { transitivity (length (seq 0 (length (tasks s))));
      [by rewrite length_seq |].
    apply submseteq_length, NoDup_submseteq; [apply NoDup_seq |].
    intros i Hi. apply elem_of_seq in Hi.
    destruct (lookup_lt_is_Some_2 (tasks s) i ltac:(lia)) as [t Ht].
    destruct (Hover i t Ht) as [r Hr].
    apply LoopFacts.finished_is_Done in Hr as ->. by apply (Hlog i r). }
  rewrite HD, length_app in Hlen.
  destruct (completed s) as [|i queue] eqn:Hq; [simpl in Hlen; lia |].
  destruct (Hdone i) as [r Hr]; [rewrite HD; set_solver |].
  rewrite Hr. destruct r as [[image result]|e]; eauto.
Qed.

Lemma loop_never_starves_witness :
  run dst [Task 0; Task 0; Task 0; Task 1; Task 1; Task 1; Task 1]
    (init ["a"; "b"] src disk_b) = Some both_finished
  ∧ main both_finished = AsCompleted 2
  ∧ is_Some (step dst Main both_finished).
Proof.
  assert (run dst [Task 0; Task 0; Task 0; Task 1; Task 1; Task 1; Task 1]
            (init ["a"; "b"] src disk_b) = Some both_finished) as Hrun
    by (vm_compute; reflexivity).
  assert (main both_finished = AsCompleted 2) as Hm by (vm_compute; reflexivity).
  split; [exact Hrun |]. split; [exact Hm |].
  apply (loop_never_starves ["a"; "b"] src dst disk_b _ both_finished 2 Hrun Hm).
  assert (tasks both_finished
          = [Done (Raise (FileNotFoundError "a"));
             Done (Return ("b", payload))]) as -> by (vm_compute; reflexivity).
  intros [|[|i]] t; simpl; intros [= <-]; simpl; eauto.
Defined.

End BatchMore.
